(** * DataLens: the tabular data engine of the spreadsheet viewer

    A shallow embedding of the React component [App] (the version with
    column filters, column reordering and Google Sheets sync) and of the
    handlers it installs: the memoised view [filteredRows], the column
    manager ([toggleColumn], [moveColumn], [addColumn]), the column
    filters ([toggleColumnFilterValue]) and the record editor
    ([handleRowClick], [navigateRecord], [handleFieldUpdate],
    [saveChanges], [discardChanges]).

    Modelling conventions.
    - A JavaScript string is a [string]: a sequence of code units, here
      restricted to the Latin-1 range that [ascii] covers.
    - A JavaScript number is an integer [Z] (the safe-integer fragment of
      the doubles: no NaN, no fractions).
    - Objects have identity.  Every object the component allocates (a row,
      a dataset, a sort configuration) carries the address it was
      allocated at; [===], [Array.prototype.indexOf] and the dependency
      check of [useMemo] compare addresses, never contents.
    - A handler is a function from the state of the component to the
      dialogs it shows and the next state; React re-renders after every
      handler, which is where [useMemo] decides whether to recompute. *)

From Stdlib Require Import ZArith Ascii String Sorted.
From Stdlib Require OrderedTypeEx.
From stdpp Require Import gmap strings list fin_maps pretty.

Set Warnings "-clear-no-such-hyp".

Open Scope string_scope.
Open Scope list_scope.
Open Scope Z_scope.

(** ** JavaScript strings *)

Module Js.

(** [WhiteSpace] and [LineTerminator] code units of ECMAScript below 256:
    TAB, LF, VT, FF, CR, SP and NBSP. *)
Definition isWhiteSpace (c : ascii) : bool :=
  let n := N_of_ascii c in
  ((9 <=? n) && (n <=? 13) || (n =? 32) || (n =? 160))%N.

(** [String.prototype.trimStart] *)
Fixpoint trimStart (s : string) : string :=
  match s with
  | EmptyString => EmptyString
  | String c s' => if isWhiteSpace c then trimStart s' else s
  end.

(** [String.prototype.trimEnd] *)
Fixpoint trimEnd (s : string) : string :=
  match s with
  | EmptyString => EmptyString
  | String c s' =>
      match trimEnd s' with
      | EmptyString => if isWhiteSpace c then EmptyString else String c EmptyString
      | t => String c t
      end
  end.

(** [String.prototype.trim] *)
Definition trim (s : string) : string := trimEnd (trimStart s).

(** Every code unit of the string is white space. *)
Fixpoint isBlank (s : string) : bool :=
  match s with
  | EmptyString => true
  | String c s' => isWhiteSpace c && isBlank s'
  end.

(** The last code unit of a string, if any. *)
Fixpoint lastChar (s : string) : option ascii :=
  match s with
  | EmptyString => None
  | String c EmptyString => Some c
  | String _ s' => lastChar s'
  end.

(** [String.prototype.toLowerCase], on one code unit: A-Z and the
    Latin-1 capitals U+00C0-U+00DE (U+00D7, the multiplication sign, is
    not a letter). *)
Definition lowerChar (c : ascii) : ascii :=
  let n := N_of_ascii c in
  if ((65 <=? n) && (n <=? 90) || (192 <=? n) && (n <=? 222) && negb (n =? 215))%N
  then ascii_of_N (n + 32)
  else c.

Fixpoint toLowerCase (s : string) : string :=
  match s with
  | EmptyString => EmptyString
  | String c s' => String (lowerChar c) (toLowerCase s')
  end.

(** [s.includes(q)]: [q] occurs in [s] as a substring. *)
Fixpoint includes (s q : string) : bool :=
  String.prefix q s ||
  match s with
  | EmptyString => false
  | String _ s' => includes s' q
  end.

(** [a < b] on strings: lexicographic on code units. *)
Definition strLt (a b : string) : bool :=
  match String.compare a b with Lt => true | _ => false end.

(** A string used as a condition is truthy when it is not empty. *)
Definition truthy (s : string) : bool :=
  match s with EmptyString => false | _ => true end.

End Js.

(** ** Cell values and rows *)

(** [string | number | boolean | null], the value type of [DataRow]. *)
Inductive Cell : Type :=
  | CStr (s : string)
  | CNum (n : Z)
  | CBool (b : bool)
  | CNull.

#[global] Instance Cell_eq_dec : EqDecision Cell.
Proof. solve_decision. Defined.

(** [String(val)] *)
Definition toStr (v : Cell) : string :=
  match v with
  | CStr s => s
  | CNum n => pretty n
  | CBool true => "true"
  | CBool false => "false"
  | CNull => "null"
  end.

(** [String(val ?? '')], where [val = row[col]] is [undefined] ([None])
    when the row has no such key. *)
Definition text (v : option Cell) : string :=
  match v with
  | None | Some CNull => ""
  | Some c => toStr c
  end.

(** A row object: the address it lives at and its own properties. *)
Record DataRow : Type := mkRow {
  ref : nat;
  fields : gmap string Cell
}.

#[global] Instance DataRow_eq_dec : EqDecision DataRow.
Proof. solve_decision. Defined.

(** [interface SpreadsheetData], with the address of the object. *)
Record SpreadsheetData : Type := mkData {
  data_ref : nat;
  headers : list string;
  rows : list DataRow;
  fileName : string;
  fileId : option string
}.

Inductive Direction : Type := asc | desc.

#[global] Instance Direction_eq_dec : EqDecision Direction.
Proof. solve_decision. Defined.

(** [{ key: string | null; direction: 'asc' | 'desc' }] *)
Record SortConfig : Type := mkSort {
  sort_ref : nat;
  key : option string;
  direction : Direction
}.

(** ** Arrays *)

(** [arr[i]] for a number [i]: [undefined] out of range. *)
Definition at_ {A} (l : list A) (i : Z) : option A :=
  if decide (0 <= i) then l !! Z.to_nat i else None.

(** [rows.indexOf(target)]: the first position holding the very object
    [target] (strict equality on objects is identity); [None] is [-1].
    [undefined] is never an element of the row array. *)
Fixpoint indexOfRow (l : list DataRow) (target : option DataRow) : option nat :=
  match target, l with
  | Some t, r :: l' =>
      if decide (ref r = ref t) then Some 0%nat else S <$> indexOfRow l' target
  | _, _ => None
  end.

(** [arr.indexOf(s)] on an array of strings, as the number JavaScript
    returns. *)
Fixpoint indexOf (l : list string) (s : string) : Z :=
  match l with
  | [] => -1
  | x :: l' =>
      if decide (x = s) then 0
      else let i := indexOf l' s in if decide (i = -1) then -1 else i + 1
  end.

(** [arr.splice(start, deleteCount, ...items)], the array it leaves
    behind.  A negative [start] counts from the end, and both numbers are
    clamped to the array. *)
Definition splice {A} (l : list A) (start deleteCount : Z) (items : list A) : list A :=
  let len := Z.of_nat (length l) in
  let actualStart := if decide (start < 0) then Z.max (len + start) 0 else Z.min start len in
  let actualDelete := Z.min (Z.max deleteCount 0) (len - actualStart) in
  take (Z.to_nat actualStart) l ++ items ++ drop (Z.to_nat (actualStart + actualDelete)) l.

(** [arr.sort(compareFn)].  ECMAScript fixes the result of the call when
    [compareFn] is a consistent comparator for the elements ([consistent]
    below): the elements in ascending order, those that compare equal in
    their input order (stability, required since ECMAScript 2019).  The
    insertion sort computes that result: it moves an element past another
    only when [compareFn] says it is greater.  For any other [compareFn]
    the standard leaves the order to the engine; there [sort] gives one of
    the permitted orders and an engine may give another one.  [sortOrder]
    below is the whole contract. *)
Fixpoint sortInsert {A} (cmp : A → A → Z) (x : A) (l : list A) : list A :=
  match l with
  | [] => [x]
  | y :: l' => if decide (cmp x y <= 0) then x :: l else y :: sortInsert cmp x l'
  end.

Definition sort {A} (cmp : A → A → Z) (l : list A) : list A :=
  foldr (sortInsert cmp) [] l.

(** ** The view pipeline: the function memoised as [filteredRows] *)

(** [Object.values(row).some(val => String(val).toLowerCase().includes(query))] *)
Definition matchesQuery (query : string) (row : DataRow) : bool :=
  existsb (λ val, Js.includes (Js.toLowerCase (toStr val)) query)
          (snd <$> map_to_list (fields row)).

Definition searchStage (searchQuery : string) (rs : list DataRow) : list DataRow :=
  if Js.truthy searchQuery
  then List.filter (matchesQuery (Js.toLowerCase searchQuery)) rs
  else rs.

(** [values.has(String(row[col] ?? ''))] *)
Definition accepts (col : string) (values : gset string) (row : DataRow) : bool :=
  bool_decide (text (fields row !! col) ∈ values).

(** One turn of the [forEach] over [Object.entries(columnFilters)]. *)
Definition filterStep (rs : list DataRow) (entry : string * gset string) : list DataRow :=
  if decide (0 < size entry.2)%nat
  then List.filter (accepts entry.1 entry.2) rs
  else rs.

Definition filterStage (columnFilters : gmap string (gset string))
    (rs : list DataRow) : list DataRow :=
  foldl filterStep rs (map_to_list columnFilters).

(** The comparison function handed to [sort]. *)
Definition compareRows (k : string) (dir : Direction) (a b : DataRow) : Z :=
  let aVal := fields a !! k in
  let bVal := fields b !! k in
  if decide (aVal = bVal) then 0
  else
    match aVal, bVal with
    | Some (CNum x), Some (CNum y) =>
        match dir with asc => x - y | desc => y - x end
    | _, _ =>
        let aStr := Js.toLowerCase (text aVal) in
        let bStr := Js.toLowerCase (text bVal) in
        if Js.strLt aStr bStr then match dir with asc => -1 | desc => 1 end
        else if Js.strLt bStr aStr then match dir with asc => 1 | desc => -1 end
        else 0
    end.

(** [if (sortConfig.key) rows = [...rows].sort(...)]: [null] and the
    empty string are both falsy. *)
Definition sortStage (cfg : SortConfig) (rs : list DataRow) : list DataRow :=
  match key cfg with
  | Some k => if Js.truthy k then sort (compareRows k (direction cfg)) rs else rs
  | None => rs
  end.

(** The body of the [useMemo] callback: search, then the column filters,
    then the sort. *)
Definition computeRows (data : option SpreadsheetData) (searchQuery : string)
    (columnFilters : gmap string (gset string)) (sortConfig : SortConfig)
    : list DataRow :=
  match data with
  | None => []
  | Some d => sortStage sortConfig (filterStage columnFilters (searchStage searchQuery (rows d)))
  end.

(** ** The state of the component *)

(** What [useMemo] compares between renders, [[data, searchQuery,
    sortConfig]]: objects by address ([Object.is]), the string by value. *)
Definition Deps : Type := option nat * string * nat.

Record AppState : Type := mkState {
  next_ref : nat;                              (* the next free address *)
  data : option SpreadsheetData;
  searchQuery : string;
  selectedIndex : option Z;
  isPanelOpen : bool;
  sortConfig : SortConfig;
  visibleColumns : gset string;
  columnOrder : list string;
  columnFilters : gmap string (gset string);
  isAddingColumn : bool;
  newColumnName : string;
  pendingChanges : gmap string Cell;
  editingField : option string;
  memo : option (Deps * list DataRow)          (* the cell of [useMemo] *)
}.

(** The state setters of [useState], one per cell. *)
Definition setNextRef (v : nat) (st : AppState) : AppState :=
  mkState v (data st) (searchQuery st) (selectedIndex st) (isPanelOpen st)
    (sortConfig st) (visibleColumns st) (columnOrder st) (columnFilters st)
    (isAddingColumn st) (newColumnName st) (pendingChanges st)
    (editingField st) (memo st).

Definition setData (v : option SpreadsheetData) (st : AppState) : AppState :=
  mkState (next_ref st) v (searchQuery st) (selectedIndex st) (isPanelOpen st)
    (sortConfig st) (visibleColumns st) (columnOrder st) (columnFilters st)
    (isAddingColumn st) (newColumnName st) (pendingChanges st)
    (editingField st) (memo st).

Definition setSearchQuery (v : string) (st : AppState) : AppState :=
  mkState (next_ref st) (data st) v (selectedIndex st) (isPanelOpen st)
    (sortConfig st) (visibleColumns st) (columnOrder st) (columnFilters st)
    (isAddingColumn st) (newColumnName st) (pendingChanges st)
    (editingField st) (memo st).

Definition setSelectedIndex (v : option Z) (st : AppState) : AppState :=
  mkState (next_ref st) (data st) (searchQuery st) v (isPanelOpen st)
    (sortConfig st) (visibleColumns st) (columnOrder st) (columnFilters st)
    (isAddingColumn st) (newColumnName st) (pendingChanges st)
    (editingField st) (memo st).

Definition setIsPanelOpen (v : bool) (st : AppState) : AppState :=
  mkState (next_ref st) (data st) (searchQuery st) (selectedIndex st) v
    (sortConfig st) (visibleColumns st) (columnOrder st) (columnFilters st)
    (isAddingColumn st) (newColumnName st) (pendingChanges st)
    (editingField st) (memo st).

Definition setSortConfig (v : SortConfig) (st : AppState) : AppState :=
  mkState (next_ref st) (data st) (searchQuery st) (selectedIndex st)
    (isPanelOpen st) v (visibleColumns st) (columnOrder st) (columnFilters st)
    (isAddingColumn st) (newColumnName st) (pendingChanges st)
    (editingField st) (memo st).

Definition setVisibleColumns (v : gset string) (st : AppState) : AppState :=
  mkState (next_ref st) (data st) (searchQuery st) (selectedIndex st)
    (isPanelOpen st) (sortConfig st) v (columnOrder st) (columnFilters st)
    (isAddingColumn st) (newColumnName st) (pendingChanges st)
    (editingField st) (memo st).

Definition setColumnOrder (v : list string) (st : AppState) : AppState :=
  mkState (next_ref st) (data st) (searchQuery st) (selectedIndex st)
    (isPanelOpen st) (sortConfig st) (visibleColumns st) v (columnFilters st)
    (isAddingColumn st) (newColumnName st) (pendingChanges st)
    (editingField st) (memo st).

Definition setColumnFilters (v : gmap string (gset string)) (st : AppState) : AppState :=
  mkState (next_ref st) (data st) (searchQuery st) (selectedIndex st)
    (isPanelOpen st) (sortConfig st) (visibleColumns st) (columnOrder st) v
    (isAddingColumn st) (newColumnName st) (pendingChanges st)
    (editingField st) (memo st).

Definition setIsAddingColumn (v : bool) (st : AppState) : AppState :=
  mkState (next_ref st) (data st) (searchQuery st) (selectedIndex st)
    (isPanelOpen st) (sortConfig st) (visibleColumns st) (columnOrder st)
    (columnFilters st) v (newColumnName st) (pendingChanges st)
    (editingField st) (memo st).

Definition setNewColumnName (v : string) (st : AppState) : AppState :=
  mkState (next_ref st) (data st) (searchQuery st) (selectedIndex st)
    (isPanelOpen st) (sortConfig st) (visibleColumns st) (columnOrder st)
    (columnFilters st) (isAddingColumn st) v (pendingChanges st)
    (editingField st) (memo st).

Definition setPendingChanges (v : gmap string Cell) (st : AppState) : AppState :=
  mkState (next_ref st) (data st) (searchQuery st) (selectedIndex st)
    (isPanelOpen st) (sortConfig st) (visibleColumns st) (columnOrder st)
    (columnFilters st) (isAddingColumn st) (newColumnName st) v
    (editingField st) (memo st).

Definition setEditingField (v : option string) (st : AppState) : AppState :=
  mkState (next_ref st) (data st) (searchQuery st) (selectedIndex st)
    (isPanelOpen st) (sortConfig st) (visibleColumns st) (columnOrder st)
    (columnFilters st) (isAddingColumn st) (newColumnName st)
    (pendingChanges st) v (memo st).

Definition setMemo (v : option (Deps * list DataRow)) (st : AppState) : AppState :=
  mkState (next_ref st) (data st) (searchQuery st) (selectedIndex st)
    (isPanelOpen st) (sortConfig st) (visibleColumns st) (columnOrder st)
    (columnFilters st) (isAddingColumn st) (newColumnName st)
    (pendingChanges st) (editingField st) v.

(** ** Rendering: [useMemo] *)

(** The dependency array as written in the source: [[data, searchQuery,
    sortConfig]]. *)
Definition deps (st : AppState) : Deps :=
  (data_ref <$> data st, searchQuery st, sort_ref (sortConfig st)).

(** One render: [useMemo] keeps the cached rows when every dependency is
    the one of the previous render, and calls the function again
    otherwise. *)
Definition render (st : AppState) : AppState :=
  let recomputed :=
    setMemo (Some (deps st,
                   computeRows (data st) (searchQuery st) (columnFilters st) (sortConfig st)))
            st in
  match memo st with
  | Some (d, _) => if decide (d = deps st) then st else recomputed
  | None => recomputed
  end.

(** The constant [filteredRows] that the handlers and the table body of
    the last render close over. *)
Definition filteredRows (st : AppState) : list DataRow :=
  match memo st with
  | Some (_, rs) => rs
  | None => []
  end.

(** ** The handlers *)

(** [window.alert(msg)] *)
Inductive Dialog : Type := Alert (msg : string).

(** The [complete] callback of the importers: a fresh object per parsed
    record, then [setData], [setVisibleColumns] and [setColumnOrder]. *)
Definition loadData (hs : list string) (records : list (gmap string Cell))
    (name : string) (id : option string) (st : AppState) : AppState :=
  let base := next_ref st in
  let rs := imap (λ i f, mkRow (base + i) f) records in
  let d := mkData (base + length records) hs rs name id in
  setColumnOrder hs
    (setVisibleColumns (list_to_set hs)
       (setData (Some d) (setNextRef (S (base + length records)) st))).

Definition toggleSort (k : string) (st : AppState) : AppState :=
  let prev := sortConfig st in
  let dir := if decide (key prev = Some k ∧ direction prev = asc) then desc else asc in
  setSortConfig (mkSort (next_ref st) (Some k) dir) (setNextRef (S (next_ref st)) st).

Definition toggleColumn (header : string) (st : AppState) : AppState :=
  let next := visibleColumns st in
  let next :=
    if decide (header ∈ next)
    then (if decide (1 < size next)%nat then next ∖ {[header]} else next)
    else next ∪ {[header]} in
  setVisibleColumns next st.

Definition toggleColumnFilterValue (column value : string) (st : AppState) : AppState :=
  let prev := columnFilters st in
  let currentSet := default ∅ (prev !! column) in
  let currentSet :=
    if decide (value ∈ currentSet)
    then currentSet ∖ {[value]}
    else currentSet ∪ {[value]} in
  let next :=
    if decide (size currentSet = 0%nat)
    then delete column prev
    else <[column := currentSet]> prev in
  setColumnFilters next st.

Definition clearColumnFilter (column : string) (st : AppState) : AppState :=
  setColumnFilters (delete column (columnFilters st)) st.

Definition handleRowClick (index : Z) (st : AppState) : AppState :=
  setEditingField None
    (setPendingChanges ∅
       (setIsPanelOpen true (setSelectedIndex (Some index) st))).

Inductive NavDirection : Type := prev | next.

Definition navigateRecord (dir : NavDirection) (st : AppState) : AppState :=
  match selectedIndex st with
  | None => st
  | Some i =>
      let newIndex :=
        match dir with
        | prev => Z.max 0 (i - 1)
        | next => Z.min (Z.of_nat (length (filteredRows st)) - 1) (i + 1)
        end in
      setEditingField None (setPendingChanges ∅ (setSelectedIndex (Some newIndex) st))
  end.

Definition discardChanges (st : AppState) : AppState :=
  setEditingField None (setPendingChanges ∅ st).

Definition handleFieldUpdate (header value : string) (st : AppState) : AppState :=
  setEditingField None
    (setPendingChanges (<[header := CStr value]> (pendingChanges st)) st).

(** [{ ...row, ...patch }]: a new object; the later spread wins. *)
Definition spread (addr : nat) (row : DataRow) (patch : gmap string Cell) : DataRow :=
  mkRow addr (patch ∪ fields row).

Definition saveChanges (st : AppState) : AppState :=
  match selectedIndex st, data st with
  | Some i, Some d =>
      let targetRow := at_ (filteredRows st) i in
      match indexOfRow (rows d) targetRow with
      | Some originalIndex =>
          match rows d !! originalIndex with
          | Some old =>
              let updatedRows :=
                <[originalIndex := spread (next_ref st) old (pendingChanges st)]> (rows d) in
              let d' :=
                mkData (S (next_ref st)) (headers d) updatedRows (fileName d) (fileId d) in
              setPendingChanges ∅
                (setData (Some d') (setNextRef (S (S (next_ref st))) st))
          | None => st
          end
      | None => st
      end
  | _, _ => st
  end.

Definition addColumn (name : string) (st : AppState) : list Dialog * AppState :=
  match data st with
  | None => ([], st)
  | Some d =>
      if negb (Js.truthy (Js.trim name)) then ([], st)
      else
        let trimmedName := Js.trim name in
        if decide (trimmedName ∈ headers d)
        then ([Alert "Column already exists"], st)
        else
          let base := next_ref st in
          let updatedHeaders := headers d ++ [trimmedName] in
          let updatedRows :=
            imap (λ i row, spread (base + i) row {[trimmedName := CStr ""]}) (rows d) in
          let d' :=
            mkData (base + length (rows d)) updatedHeaders updatedRows
                   (fileName d) (fileId d) in
          ([], setNewColumnName ""
                 (setIsAddingColumn false
                    (setColumnOrder (columnOrder st ++ [trimmedName])
                       (setVisibleColumns (visibleColumns st ∪ {[trimmedName]})
                          (setData (Some d')
                             (setNextRef (S (base + length (rows d))) st))))))
  end.

Definition moveColumn (draggedHeader targetHeader : string) (st : AppState) : AppState :=
  let oldIndex := indexOf (columnOrder st) draggedHeader in
  let newIndex := indexOf (columnOrder st) targetHeader in
  let newOrder := columnOrder st in
  let newOrder := splice newOrder oldIndex 1 [] in
  let newOrder := splice newOrder newIndex 0 [draggedHeader] in
  setColumnOrder newOrder st.

(** The close button of the detail panel. *)
Definition closePanel (st : AppState) : AppState :=
  setEditingField None (setPendingChanges ∅ (setIsPanelOpen false st)).

(** A click on the backdrop behind the detail panel. *)
Definition closeBackdrop (st : AppState) : AppState :=
  setIsPanelOpen false st.

Definition resetApp (st : AppState) : AppState :=
  setEditingField None
    (setPendingChanges ∅
       (setIsPanelOpen false
          (setSelectedIndex None (setSearchQuery "" (setData None st))))).

(** ** The component as a transition system *)

Inductive Event : Type :=
  | Load (hs : list string) (records : list (gmap string Cell))
         (name : string) (id : option string)
  | Search (q : string)
  | ToggleSort (k : string)
  | ToggleColumn (header : string)
  | ToggleColumnFilterValue (column value : string)
  | ClearColumnFilter (column : string)
  | RowClick (index : nat)
  | Navigate (dir : NavDirection)
  | Discard
  | FieldUpdate (header value : string)
  | Save
  | AddColumn (name : string)
  | MoveColumn (draggedHeader targetHeader : string)
  | ClosePanel
  | CloseBackdrop
  | Reset
  | EditField (header : string)        (* double click on a value *)
  | CancelEdit                         (* Escape in the text area *)
  | OpenAddColumn
  | CancelAddColumn
  | TypeColumnName (name : string).

Definition handle (ev : Event) (st : AppState) : list Dialog * AppState :=
  match ev with
  | Load hs records name id => ([], loadData hs records name id st)
  | Search q => ([], setSearchQuery q st)
  | ToggleSort k => ([], toggleSort k st)
  | ToggleColumn header => ([], toggleColumn header st)
  | ToggleColumnFilterValue column value => ([], toggleColumnFilterValue column value st)
  | ClearColumnFilter column => ([], clearColumnFilter column st)
  | RowClick index => ([], handleRowClick (Z.of_nat index) st)
  | Navigate dir => ([], navigateRecord dir st)
  | Discard => ([], discardChanges st)
  | FieldUpdate header value => ([], handleFieldUpdate header value st)
  | Save => ([], saveChanges st)
  | AddColumn name => addColumn name st
  | MoveColumn draggedHeader targetHeader => ([], moveColumn draggedHeader targetHeader st)
  | ClosePanel => ([], closePanel st)
  | CloseBackdrop => ([], closeBackdrop st)
  | Reset => ([], resetApp st)
  | EditField header => ([], setEditingField (Some header) st)
  | CancelEdit => ([], setEditingField None st)
  | OpenAddColumn => ([], setIsAddingColumn true st)
  | CancelAddColumn => ([], setIsAddingColumn false st)
  | TypeColumnName name => ([], setNewColumnName name st)
  end.

(** A handler runs to completion, then React renders again. *)
Definition dispatch (ev : Event) (st : AppState) : AppState :=
  render (handle ev st).2.

(** The state after the first render of the component. *)
Definition initial : AppState :=
  render (mkState 1 None "" None false (mkSort 0 None asc) ∅ [] ∅ false "" ∅ None None).

Definition run (evs : list Event) (st : AppState) : AppState :=
  foldl (λ s ev, dispatch ev s) st evs.

(** The states the component can be in. *)
Inductive reachable : AppState → Prop :=
  | reachable_initial : reachable initial
  | reachable_dispatch ev st : reachable st → reachable (dispatch ev st).

(** ** Vocabulary of the statements *)

(** [st'] is [st] with the column [t] added: [t] is the last canonical
    column, every row has kept its fields and holds the empty string
    under [t], and the display state shows [t] last. *)
Definition columnAdded (t : string) (st st' : AppState) : Prop :=
  ∃ d d',
    data st = Some d ∧ data st' = Some d' ∧
    headers d' = headers d ++ [t] ∧
    length (rows d') = length (rows d) ∧
    (∀ i row, rows d !! i = Some row →
       ∃ row', rows d' !! i = Some row' ∧ fields row' = <[t := CStr ""]> (fields row)) ∧
    visibleColumns st' = visibleColumns st ∪ {[t]} ∧
    columnOrder st' = columnOrder st ++ [t].

(** [addColumn] read on the raw argument: an alert and no change exactly
    when [name] is a header, the column [name] added otherwise. *)
Definition addColumn_on_raw_name (name : string) (st : AppState) : Prop :=
  ∀ d, data st = Some d →
    (name ∈ headers d → addColumn name st = ([Alert "Column already exists"], st)) ∧
    (name ∉ headers d →
       (addColumn name st).1 = [] ∧ columnAdded name st (addColumn name st).2).

(** [a] occurs in [l] before an occurrence of [b]. *)
Definition before {A} (a b : A) (l : list A) : Prop :=
  ∃ l1 l2 l3, l = l1 ++ a :: l2 ++ b :: l3.

(** A row passes every column filter that has values selected. *)
Definition passes (columnFilters : gmap string (gset string)) (row : DataRow) : bool :=
  forallb (λ entry, bool_decide (size entry.2 = 0%nat) || accepts entry.1 entry.2 row)
          (map_to_list columnFilters).

(** The number of rows of the view that the current inputs give. *)
Definition viewCount (st : AppState) : nat :=
  length (computeRows (data st) (searchQuery st) (columnFilters st) (sortConfig st)).

(** The values selected for a column; none when it is not filtered. *)
Definition accepted (column : string) (st : AppState) : gset string :=
  default ∅ (columnFilters st !! column).

(** Filter monotonicity read literally: selecting one more value never
    shows more rows, deselecting one never shows fewer. *)
Definition selecting_never_shows_more (column value : string) (st : AppState) : Prop :=
  let st' := toggleColumnFilterValue column value st in
  (value ∉ accepted column st → (viewCount st' ≤ viewCount st)%nat) ∧
  (value ∈ accepted column st → (viewCount st ≤ viewCount st')%nat).

(** The heap discipline of the component: every address in use is below
    the next free one, and no two rows of the dataset are the same
    object. *)
Definition heap_ok (st : AppState) : Prop :=
  (sort_ref (sortConfig st) < next_ref st)%nat ∧
  ∀ d, data st = Some d →
    (data_ref d < next_ref st)%nat ∧
    NoDup (ref <$> rows d) ∧
    ∀ r, r ∈ rows d → (ref r < next_ref st)%nat.

(** What the cell of [useMemo] holds: the rows computed at some earlier
    render from the inputs [d0], [q0], [cf0], [s0] of that render, keyed
    by the dependencies of that render.  Addresses name objects: if the
    dataset or the sort configuration of the state has the address that
    was cached, it is the object that was cached. *)
Definition memo_sound (st : AppState) : Prop :=
  ∃ d0 q0 cf0 s0,
    memo st = Some ((data_ref <$> d0, q0, sort_ref s0), computeRows d0 q0 cf0 s0) ∧
    (∀ d, d0 = Some d → (data_ref d < next_ref st)%nat) ∧
    (sort_ref s0 < next_ref st)%nat ∧
    (data_ref <$> d0 = data_ref <$> data st → d0 = data st) ∧
    (sort_ref s0 = sort_ref (sortConfig st) → s0 = sortConfig st).

Definition Inv (st : AppState) : Prop := heap_ok st ∧ memo_sound st.

(** The state has been rendered since its last change. *)
Definition rendered (st : AppState) : Prop :=
  ∃ rs, memo st = Some (deps st, rs).

(** What a successful [saveChanges] leaves: the row at [p] replaced by a
    new object holding the old fields overwritten by the whole buffer. *)
Definition committed (st : AppState) (d : SpreadsheetData) (p : nat) (old : DataRow)
    : AppState :=
  setPendingChanges ∅
    (setData
       (Some (mkData (S (next_ref st)) (headers d)
                (<[p := spread (next_ref st) old (pendingChanges st)]> (rows d))
                (fileName d) (fileId d)))
       (setNextRef (S (S (next_ref st))) st)).

(** The text the comparison falls back on. *)
Definition sortKey (k : string) (r : DataRow) : string :=
  Js.toLowerCase (text (fields r !! k)).

(** The cell of [r] under [k] is a number; is not a number. *)
Definition numericColumn (k : string) (r : DataRow) : Prop :=
  ∃ n, fields r !! k = Some (CNum n).

Definition textColumn (k : string) (r : DataRow) : Prop :=
  ∀ n, fields r !! k ≠ Some (CNum n).

(** [cmp] is a consistent comparator for the elements of [l], in the
    words of ECMAScript ([Array.prototype.sort]): on these elements
    "equal" is reflexive, symmetric and transitive, and "less" and
    "greater" are transitive. *)
Definition consistent {A} (cmp : A → A → Z) (l : list A) : Prop :=
  ∀ a b c, a ∈ l → b ∈ l → c ∈ l →
    cmp a a = 0 ∧
    (cmp a b = 0 → cmp b a = 0) ∧
    (cmp a b = 0 → cmp b c = 0 → cmp a c = 0) ∧
    (cmp a b < 0 → cmp b c < 0 → cmp a c < 0) ∧
    (cmp a b > 0 → cmp b c > 0 → cmp a c > 0).

(** The contract of [l.sort(cmp)]: [l'] holds the elements of [l]; when
    [cmp] is a consistent comparator for them, [l'] is in ascending order
    and elements that compare equal are in the order they had in [l].
    When it is not, the order is the engine's choice. *)
Definition sortOrder {A} (cmp : A → A → Z) (l l' : list A) : Prop :=
  l' ≡ₚ l ∧
  (consistent cmp l →
     StronglySorted (λ a b, cmp a b <= 0) l' ∧
     ∀ a b, cmp a b = 0 → before a b l → before a b l').

(** The views that the sort stage of the pipeline may hand on, whatever
    the engine: the rows as they are without a sort key, and a permitted
    result of [sort] with one. *)
Definition sortStageResult (cfg : SortConfig) (rs view : list DataRow) : Prop :=
  match key cfg with
  | Some k =>
      if Js.truthy k then sortOrder (compareRows k (direction cfg)) rs view
      else view = rs
  | None => view = rs
  end.

(** ** Sample sessions *)

Module Sample.

Definition record (a b : string) : gmap string Cell :=
  {["A" := CStr a; "B" := CStr b]}.

(** A two-column sheet with two records, just imported. *)
Definition loaded : AppState :=
  dispatch (Load ["A"; "B"] [record "1" "x"; record "2" "y"] "people.csv" None) initial.

(** A three-column sheet, just imported. *)
Definition wide : AppState :=
  dispatch (Load ["A"; "B"; "C"] [{["A" := CStr "1"; "B" := CStr "x"; "C" := CStr "p"]}]
                 "wide.csv" None) initial.

(** The same sheet with the value "1" selected in the filter of column A. *)
Definition filtered : AppState :=
  dispatch (ToggleColumnFilterValue "A" "1") loaded.

(** The dataset object of [loaded] and its second row. *)
Definition second : DataRow := mkRow 2 (record "2" "y").

Definition sheet : SpreadsheetData :=
  mkData 3 ["A"; "B"] [mkRow 1 (record "1" "x"); second] "people.csv" None.

(** The two rows of [twins]: equal fields, different objects. *)
Definition twin1 : DataRow := mkRow 1 (record "1" "x").
Definition twin2 : DataRow := mkRow 2 (record "1" "x").

Definition twinSheet : SpreadsheetData :=
  mkData 3 ["A"; "B"] [twin1; twin2] "twins.csv" None.

(** A record is open and one field has been edited, not yet saved. *)
Definition editing : AppState :=
  run [RowClick 0; FieldUpdate "B" "changed"] loaded.

(** A sheet whose two records have the same content; the second one is
    open and edited. *)
Definition twins : AppState :=
  run [Load ["A"; "B"] [record "1" "x"; record "1" "x"] "twins.csv" None;
       RowClick 1; FieldUpdate "B" "changed"] initial.

End Sample.

(** ** Further functions of the component *)

(** [new Set(iterable)]: the distinct elements, in order of first
    appearance. *)
Definition setAdd (acc : list string) (x : string) : list string :=
  if decide (x ∈ acc) then acc else acc ++ [x].

Definition newSet (l : list string) : list string := foldl setAdd [] l.

(** The comparison [sort()] uses when it is given none: strings by code
    units. *)
Definition defaultCompare (a b : string) : Z :=
  if Js.strLt a b then -1 else if Js.strLt b a then 1 else 0.

(** The values offered in the filter menu of a column. *)
Definition getUniqueValues (column : string) (st : AppState) : list string :=
  match data st with
  | None => []
  | Some d =>
      let values := newSet ((λ row, text (fields row !! column)) <$> rows d) in
      sort defaultCompare values
  end.

(** No code unit of the string is a dot or a slash: the string matches
    the class [[^/.]] repeated. *)
Fixpoint noDotSlash (s : string) : bool :=
  match s with
  | EmptyString => true
  | String c s' =>
      negb (Ascii.eqb c ".") && negb (Ascii.eqb c "/") && noDotSlash s'
  end.

(** [name.replace(/\.[^/.]+$/, EMPTY)]: the first position where a dot is
    followed, up to the end of the string, by one or more code units that
    are neither dot nor slash; the string is cut there. *)
Fixpoint stripExtension (s : string) : string :=
  match s with
  | EmptyString => EmptyString
  | String c s' =>
      if Ascii.eqb c "." && Js.truthy s' && noDotSlash s'
      then EmptyString
      else String c (stripExtension s')
  end.

(** What a call of [downloadCSV] comes to: nothing without a dataset; an
    exception when [Papa.unparse] is given an empty list of columns
    ("Option columns is empty"), before any link is made; otherwise a
    link with the [download] attribute [name] is clicked. *)
Inductive Download : Type :=
  | NoDownload
  | UnparseThrows
  | DownloadAs (name : string).

Definition downloadCSV (st : AppState) : Download :=
  match data st with
  | None => NoDownload
  | Some d =>
      match columnOrder st with
      | [] => UnparseThrows
      | _ :: _ => DownloadAs ("updated_" +:+ stripExtension (fileName d) +:+ ".csv")
      end
  end.

(** [row[h] ?? ''] *)
Definition orEmpty (v : option Cell) : Cell :=
  match v with
  | None | Some CNull => CStr ""
  | Some c => c
  end.

(** The two-dimensional array [values] that [syncToDrive] writes to the
    sheet: nothing without a dataset that came from a sheet. *)
Definition syncValues (st : AppState) : option (list (list Cell)) :=
  match data st with
  | None => None
  | Some d =>
      match fileId d with
      | None => None
      | Some id =>
          if Js.truthy id
          then Some ((CStr <$> columnOrder st) ::
                     ((λ row, (λ h, orEmpty (fields row !! h)) <$> columnOrder st)
                        <$> rows d))
          else None
      end
  end.

(** [s.endsWith(suffix)] *)
Fixpoint endsWith (s suffix : string) : bool :=
  bool_decide (s = suffix) ||
  match s with
  | EmptyString => false
  | String _ s' => endsWith s' suffix
  end.

(** The [message] listener: whether it goes on to [openPicker], given the
    origin of the event and the [type] of its data ([None] when the data
    has none). *)
Definition handleMessage (origin : string) (type : option string) : bool :=
  if negb (endsWith origin ".run.app") && negb (Js.includes origin "localhost")
  then false
  else bool_decide (type = Some "OAUTH_AUTH_SUCCESS").

(** [name.split('.').pop()]: what follows the last dot, the whole name
    when it has none. *)
Fixpoint lastSegment (cur s : string) : string :=
  match s with
  | EmptyString => cur
  | String c s' =>
      if Ascii.eqb c "." then lastSegment EmptyString s'
      else lastSegment (cur +:+ String c EmptyString) s'
  end.

Definition fileExtension (name : string) : string :=
  Js.toLowerCase (lastSegment EmptyString name).

(** A dropped or chosen file, with what the parsers make of it:
    [results.meta.fields] and [results.data] of Papa.parse, and for a
    workbook the records of [sheet_to_json] with the keys of the first
    one in their order. *)
Record UploadedFile : Type := mkFile {
  file_name : string;
  csv_fields : option (list string);
  csv_data : list (gmap string Cell);
  sheet_json : list (gmap string Cell);
  sheet_keys : list string
}.

Definition handleFileUpload (file : UploadedFile) (st : AppState) : AppState :=
  let extension := fileExtension (file_name file) in
  if decide (extension = "csv") then
    loadData (default [] (csv_fields file)) (csv_data file) (file_name file) None st
  else if decide (extension = "xlsx" ∨ extension = "xls") then
    match sheet_json file with
    | [] => st
    | _ :: _ => loadData (sheet_keys file) (sheet_json file) (file_name file) None st
    end
  else st.

(** What the header of the detail panel comes to when the component
    renders: the panel is not shown (no dataset, panel closed or nothing
    selected), or the title expression
    [String(pendingChanges[columnOrder[0]] ??
            filteredRows[selectedIndex][columnOrder[0]] ?? 'Detail View')]
    has a value, or it throws a [TypeError] because
    [filteredRows[selectedIndex]] is [undefined]. *)
Inductive PanelTitle : Type :=
  | NotShown
  | Throws
  | Title (s : string).

(** [v ?? other] on a cell: [null] and [undefined] give way. *)
Definition nullish (v : option Cell) : bool :=
  match v with
  | None | Some CNull => true
  | Some _ => false
  end.

Definition panelTitle (st : AppState) : PanelTitle :=
  match data st, isPanelOpen st, selectedIndex st with
  | Some _, true, Some i =>
      (* [columnOrder[0]] of an empty order is [undefined], the key "undefined" *)
      let first := default "undefined" (columnOrder st !! 0%nat) in
      if negb (nullish (pendingChanges st !! first))
      then Title (text (pendingChanges st !! first))
      else
        match at_ (filteredRows st) i with
        | None => Throws
        | Some row =>
            if nullish (fields row !! first) then Title "Detail View"
            else Title (text (fields row !! first))
        end
  | _, _, _ => NotShown
  end.

(** A row passes the search and the column filters. *)
Definition keeps (q : string) (cf : gmap string (gset string)) (row : DataRow) : bool :=
  (negb (Js.truthy q) || matchesQuery (Js.toLowerCase q) row) && passes cf row.

(** ** The earlier version of the component, with confirmation dialogs *)

Module Guarded.

(** [window.confirm(msg)]; the answer of the user is an input of the
    handler. *)
Inductive Prompt : Type := Confirm (msg : string).

(** [Object.keys(pendingChanges).length > 0] *)
Definition dirty (st : AppState) : bool := bool_decide (pendingChanges st ≠ ∅).

Definition unsaved : string := "You have unsaved changes. Do you want to discard them?".

(** [if (dirty) { if (!confirm(msg)) return; } rest] *)
Definition guarded (msg : string) (answer : bool) (rest : AppState → AppState)
    (st : AppState) : list Prompt * AppState :=
  if dirty st
  then ([Confirm msg], if answer then rest st else st)
  else ([], rest st).

Definition handleRowClick (answer : bool) (index : Z) (st : AppState)
    : list Prompt * AppState :=
  guarded unsaved answer
    (λ st, setEditingField None
             (setPendingChanges ∅
                (setIsPanelOpen true (setSelectedIndex (Some index) st)))) st.

Definition navigateRecord (answer : bool) (dir : NavDirection) (st : AppState)
    : list Prompt * AppState :=
  match selectedIndex st with
  | None => ([], st)
  | Some i =>
      guarded unsaved answer
        (λ st,
           let newIndex :=
             match dir with
             | prev => Z.max 0 (i - 1)
             | next => Z.min (Z.of_nat (length (filteredRows st)) - 1) (i + 1)
             end in
           setEditingField None (setPendingChanges ∅ (setSelectedIndex (Some newIndex) st)))
        st
  end.

Definition resetApp (answer : bool) (st : AppState) : list Prompt * AppState :=
  guarded unsaved answer
    (λ st, setEditingField None
             (setPendingChanges ∅
                (setIsPanelOpen false
                   (setSelectedIndex None (setSearchQuery "" (setData None st))))))
    st.

(** The close button of the detail panel. *)
Definition closePanel (answer : bool) (st : AppState) : list Prompt * AppState :=
  guarded "Discard unsaved changes?" answer
    (λ st, setEditingField None (setPendingChanges ∅ (setIsPanelOpen false st))) st.

End Guarded.

(** ** More sample sessions *)

Module Demo.

(** A sheet sorted by column A, descending. *)
Definition sorted : AppState :=
  run [ToggleSort "A"; ToggleSort "A"] Sample.loaded.

(** A sheet that came from Google Sheets. *)
Definition remote : AppState :=
  dispatch (Load ["A"; "B"] [Sample.record "1" "x"; {["A" := CNull]}]
                 "Budget" (Some "sheet-id")) initial.

(** A one-record sheet searched for "x", its record open and edited so
    that it will no longer match. *)
Definition narrowed : AppState :=
  run [Load ["A"] [{["A" := CStr "x"]}] "one.csv" None; Search "x";
       RowClick 0; FieldUpdate "A" "y"] initial.

(** What the import of an empty CSV file leaves: a dataset without
    columns and without rows. *)
Definition empty : AppState :=
  handleFileUpload (mkFile "empty.csv" None [] [] []) initial.

Definition reportUpper : UploadedFile :=
  mkFile "Report.final.CSV" (Some ["A"]) [{["A" := CStr "1"]}] [] [].

End Demo.

(** * Properties *)

(** ** Strings: what [trim] removes *)

Section Trim.

Import Js.

Lemma trimStart_blank (s : string) : isBlank s = true → trimStart s = "".
Proof.
  induction s as [|c s IH]; simpl; [done|].
  intros [Hc Hs]%andb_prop. rewrite Hc. by apply IH.
Qed.

Lemma trimStart_empty_blank (s : string) : trimStart s = "" → isBlank s = true.
Proof.
  induction s as [|c s IH]; simpl; [done|].
  destruct (isWhiteSpace c); [auto | discriminate].
Qed.

Lemma trimEnd_empty_iff (s : string) : trimEnd s = "" ↔ isBlank s = true.
Proof.
  induction s as [|c s IH]; simpl; [done|].
  destruct (trimEnd s) as [|c' t].
  - destruct (isWhiteSpace c); simpl; [tauto|]. split; discriminate.
  - split; [discriminate|]. intros [_ Hs]%andb_prop.
    by apply IH in Hs.
Qed.

(** A string that survives [trimStart] starts with a visible code unit. *)
Lemma trimStart_head (s : string) (c : ascii) (t : string) :
  trimStart s = String c t → isWhiteSpace c = false.
Proof.
  induction s as [|c0 s IH]; simpl; [discriminate|].
  destruct (isWhiteSpace c0) eqn:Hc0; [done|]. congruence.
Qed.

Lemma trim_empty_iff (s : string) : trim s = "" ↔ isBlank s = true.
Proof.
  unfold trim. rewrite trimEnd_empty_iff. split.
  - destruct (trimStart s) as [|c t] eqn:Hs.
    + intros _. by apply trimStart_empty_blank.
    + apply trimStart_head in Hs. simpl. rewrite Hs. discriminate.
  - intros Hs. by rewrite trimStart_blank.
Qed.

Lemma truthy_trim (s : string) : truthy (trim s) = negb (isBlank s).
Proof.
  destruct (isBlank s) eqn:Hb.
  - apply trim_empty_iff in Hb. by rewrite Hb.
  - destruct (trim s) eqn:Ht; [|done].
    apply trim_empty_iff in Ht. congruence.
Qed.

(** [trimStart] only drops a blank prefix, [trimEnd] a blank suffix. *)
Lemma trimStart_decompose (s : string) :
  ∃ l, isBlank l = true ∧ s = (l ++ trimStart s)%string.
Proof.
  induction s as [|c s (l & Hl & Hs)]; simpl.
  - by exists "".
  - destruct (isWhiteSpace c) eqn:Hc.
    + exists (String c l). simpl. rewrite Hc, Hl. split; [done|].
      exact (f_equal (String c) Hs).
    + by exists "".
Qed.

Lemma trimEnd_decompose (s : string) :
  ∃ r, isBlank r = true ∧ s = (trimEnd s ++ r)%string.
Proof.
  induction s as [|c s (r & Hr & Hs)]; simpl.
  - by exists "".
  - destruct (trimEnd s) as [|c' t] eqn:Ht.
    + destruct (isWhiteSpace c) eqn:Hc.
      * exists (String c s). simpl. rewrite Hc. split; [|done].
        simpl in *. by apply trimEnd_empty_iff.
      * exists r. split; [done|]. exact (f_equal (String c) Hs).
    + exists r. split; [done|]. exact (f_equal (String c) Hs).
Qed.

(** [trim] removes white space from both ends and nothing else. *)
Lemma trim_decompose (s : string) :
  ∃ l r, isBlank l = true ∧ isBlank r = true ∧ s = (l ++ trim s ++ r)%string.
Proof.
  destruct (trimStart_decompose s) as (l & Hl & Hs).
  destruct (trimEnd_decompose (trimStart s)) as (r & Hr & Ht).
  exists l, r. repeat split; [done..|]. unfold trim. by rewrite <- Ht.
Qed.

Lemma trimEnd_last (s : string) (c : ascii) :
  lastChar (trimEnd s) = Some c → isWhiteSpace c = false.
Proof.
  induction s as [|c0 s IH]; simpl; [discriminate|].
  destruct (trimEnd s) as [|c' t] eqn:Ht.
  - destruct (isWhiteSpace c0) eqn:Hc0; simpl; [discriminate|]. congruence.
  - intros H. apply IH. exact H.
Qed.

Lemma trimEnd_head (s : string) (c : ascii) (t : string) :
  trimEnd s = String c t → ∃ t', s = String c t'.
Proof.
  destruct s as [|c0 s]; simpl; [discriminate|].
  destruct (trimEnd s); [destruct (isWhiteSpace c0)|]; intros; simplify_eq; eauto.
Qed.

(** The trimmed name neither starts nor ends with white space. *)
Lemma trim_ends (s : string) :
  (∀ c t, trim s = String c t → isWhiteSpace c = false) ∧
  (∀ c, lastChar (trim s) = Some c → isWhiteSpace c = false).
Proof.
  split.
  - intros c t Ht. unfold trim in Ht.
    apply trimEnd_head in Ht as [t' Ht]. by apply trimStart_head in Ht.
  - intros c. apply trimEnd_last.
Qed.

End Trim.

(** ** Column manager *)

Lemma setVisibleColumns_same (st : AppState) :
  setVisibleColumns (visibleColumns st) st = st.
Proof. by destruct st. Qed.

Lemma render_visibleColumns (st : AppState) :
  visibleColumns (render st) = visibleColumns st.
Proof.
  unfold render. destruct (memo st) as [[d rs]|]; [|done].
  by destruct (decide _).
Qed.

Lemma toggleColumn_keeps_one (header : string) (st : AppState) :
  visibleColumns st ≠ ∅ → visibleColumns (toggleColumn header st) ≠ ∅.
Proof.
  intros Hne. unfold toggleColumn. simpl.
  destruct (decide (header ∈ visibleColumns st)) as [Hin|Hout].
  - destruct (decide (1 < size (visibleColumns st))%nat) as [Hsz|_]; [|done].
    intros Hempty. apply (f_equal size) in Hempty.
    rewrite size_difference, size_singleton, size_empty in Hempty by set_solver.
    lia.
  - set_solver.
Qed.

Lemma toggleColumn_last (header : string) (st : AppState) :
  visibleColumns st = {[header]} → toggleColumn header st = st.
Proof.
  intros Hone. unfold toggleColumn. rewrite Hone.
  rewrite decide_True by set_solver.
  rewrite decide_False by (rewrite size_singleton; lia).
  rewrite <- Hone. apply setVisibleColumns_same.
Qed.

(** C9. Visibility floor: starting with at least one visible column, no
    sequence of column toggles empties the visible set; toggling the only
    visible column leaves the state as it is, however often it is
    repeated. *)
Theorem visibility_floor (st : AppState) (targets : list string) :
  visibleColumns st ≠ ∅ →
  visibleColumns (run (ToggleColumn <$> targets) st) ≠ ∅ ∧
  (∀ header, visibleColumns st = {[header]} →
     toggleColumn header st = st ∧
     ∀ n, Nat.iter n (toggleColumn header) st = st).
Proof.
  intros Hne. split.
  - revert st Hne. induction targets as [|h targets IH]; intros st Hne; [done|].
    simpl. apply IH. unfold dispatch. simpl.
    rewrite render_visibleColumns. by apply toggleColumn_keeps_one.
  - intros header Hone. split; [by apply toggleColumn_last|].
    induction n as [|n IH]; [done|]. simpl. rewrite IH. by apply toggleColumn_last.
Qed.

Lemma visibility_floor_witness :
  visibleColumns (run (ToggleColumn <$> ["A"; "B"; "B"]) Sample.loaded) ≠ ∅ ∧
  (∀ header, visibleColumns Sample.loaded = {[header]} →
     toggleColumn header Sample.loaded = Sample.loaded ∧
     ∀ n, Nat.iter n (toggleColumn header) Sample.loaded = Sample.loaded).
Proof.
  apply (visibility_floor Sample.loaded ["A"; "B"; "B"]).
  intros H. apply (f_equal size) in H. vm_compute in H. discriminate.
Defined.

(** C7. [moveColumn] on a name that is not in the display order is not a
    no-op: a drop that carries no header text asks to move [""], and the
    last column is lost while [""] enters the order. *)
Theorem moveColumn_missing_name :
  columnOrder Sample.wide = ["A"; "B"; "C"] ∧
  columnOrder (dispatch (MoveColumn "" "A") Sample.wide) = [""; "A"; "B"] ∧
  columnOrder (dispatch (MoveColumn "A" "Z") Sample.wide) = ["B"; "A"; "C"].
Proof. by vm_compute. Qed.

(** ** Reordering columns when both names are in the order *)

Lemma indexOf_elem_of (l : list string) (s : string) :
  s ∈ l →
  ∃ i, indexOf l s = Z.of_nat i ∧ l !! i = Some s ∧ ∀ i', (i' < i)%nat → l !! i' ≠ Some s.
Proof.
  induction l as [|x l IH]; intros Hin; [by apply elem_of_nil in Hin|].
  simpl. destruct (decide (x = s)) as [->|Hne].
  - exists 0%nat. split_and!; [done..|]. intros i' Hi'. lia.
  - apply elem_of_cons in Hin as [->|Hin]; [done|].
    destruct (IH Hin) as (i & Hi & Hl & Hfirst). exists (S i).
    rewrite Hi, decide_False by lia. split_and!; [lia|done|].
    intros [|i'] Hi'; simpl; [congruence|]. apply Hfirst. lia.
Qed.

Lemma indexOf_not_elem_of (l : list string) (s : string) : s ∉ l → indexOf l s = -1.
Proof.
  induction l as [|x l IH]; intros Hout; [done|].
  apply not_elem_of_cons in Hout as [Hne Hout]. simpl.
  rewrite decide_False by done. rewrite (IH Hout). by rewrite decide_True.
Qed.

Lemma splice_delete {A} (l : list A) (i : nat) :
  (i < length l)%nat → splice l (Z.of_nat i) 1 [] = delete i l.
Proof.
  intros Hi. unfold splice. rewrite decide_False by lia.
  rewrite Z.min_l by lia. rewrite Z.max_l by lia. rewrite Z.min_l by lia.
  rewrite Nat2Z.id. replace (Z.to_nat (Z.of_nat i + 1)) with (S i) by lia.
  simpl. by rewrite delete_take_drop.
Qed.

Lemma splice_insert {A} (l : list A) (j : nat) (x : A) :
  (j ≤ length l)%nat → splice l (Z.of_nat j) 0 [x] = take j l ++ x :: drop j l.
Proof.
  intros Hj. unfold splice. rewrite decide_False by lia.
  rewrite Z.min_l by lia. rewrite Z.max_l by lia. rewrite Z.min_l by lia.
  rewrite Nat2Z.id. by replace (Z.to_nat (Z.of_nat j + 0)) with j by lia.
Qed.

(** X22. With both names in the display order, [moveColumn] takes the dragged
    column out and puts it at the index the target had: the new order is
    a permutation of the old one, and the columns other than the dragged
    one keep their relative order. *)
Lemma moveColumn_present (draggedHeader targetHeader : string) (st : AppState) :
  draggedHeader ∈ columnOrder st → targetHeader ∈ columnOrder st →
  ∃ i j,
    indexOf (columnOrder st) draggedHeader = Z.of_nat i ∧
    indexOf (columnOrder st) targetHeader = Z.of_nat j ∧
    columnOrder (moveColumn draggedHeader targetHeader st) =
      take j (delete i (columnOrder st)) ++
      draggedHeader :: drop j (delete i (columnOrder st)) ∧
    columnOrder (moveColumn draggedHeader targetHeader st) !! j = Some draggedHeader ∧
    columnOrder (moveColumn draggedHeader targetHeader st) ≡ₚ columnOrder st.
Proof.
  intros (i & Hi & Hli & _)%indexOf_elem_of (j & Hj & Hlj & _)%indexOf_elem_of.
  exists i, j. unfold moveColumn. simpl. rewrite Hi, Hj.
  assert (i < length (columnOrder st))%nat as Hilt by by eapply lookup_lt_Some.
  assert (j < length (columnOrder st))%nat as Hjlt by by eapply lookup_lt_Some.
  assert (j ≤ length (delete i (columnOrder st)))%nat as Hjle.
  { rewrite length_delete by eauto. lia. }
  rewrite splice_delete by done. rewrite splice_insert by done.
  split_and!; [done..| |].
  - apply list_lookup_middle. by rewrite length_take_le.
  - rewrite <- Permutation_middle, take_drop. symmetry. by apply delete_Permutation.
Qed.

(** ** Adding a column *)

Section AddColumn.

Import Js.

Lemma trimEnd_idem (s : string) : trimEnd (trimEnd s) = trimEnd s.
Proof.
  induction s as [|c s IH]; simpl; [done|].
  destruct (trimEnd s) as [|c' t] eqn:Ht.
  - destruct (isWhiteSpace c) eqn:Hc; simpl; [done|]. by rewrite Hc.
  - change (trimEnd (String c (String c' t))) with
      (match trimEnd (String c' t) with
       | "" => if isWhiteSpace c then "" else String c ""
       | t0 => String c t0
       end).
    by rewrite IH.
Qed.

Lemma trim_idem (s : string) : trim (trim s) = trim s.
Proof.
  unfold trim. destruct (trimEnd (trimStart s)) as [|c t] eqn:Hu; [done|].
  destruct (trimEnd_head _ _ _ Hu) as [t' Hs].
  apply trimStart_head in Hs. simpl. rewrite Hs.
  rewrite <- Hu. apply trimEnd_idem.
Qed.

Lemma isBlank_trim (s : string) : isBlank (trim s) = isBlank s.
Proof.
  destruct (isBlank s) eqn:Hb.
  - apply trim_empty_iff in Hb. by rewrite Hb.
  - destruct (isBlank (trim s)) eqn:Hb'; [|done].
    apply trim_empty_iff in Hb'. rewrite trim_idem in Hb'.
    apply trim_empty_iff in Hb'. congruence.
Qed.

Lemma addColumn_blank (name : string) (st : AppState) :
  isBlank name = true → addColumn name st = ([], st).
Proof.
  intros Hb. unfold addColumn. destruct (data st); [|done].
  by rewrite truthy_trim, Hb.
Qed.

Lemma addColumn_duplicate (name : string) (st : AppState) (d : SpreadsheetData) :
  data st = Some d → isBlank name = false → trim name ∈ headers d →
  addColumn name st = ([Alert "Column already exists"], st).
Proof.
  intros Hd Hb Hin. unfold addColumn. rewrite Hd, truthy_trim, Hb. simpl.
  by rewrite decide_True.
Qed.

Lemma addColumn_fresh (name : string) (st : AppState) (d : SpreadsheetData) :
  data st = Some d → isBlank name = false → trim name ∉ headers d →
  (addColumn name st).1 = [] ∧ columnAdded (trim name) st (addColumn name st).2.
Proof.
  intros Hd Hb Hout. unfold addColumn. rewrite Hd, truthy_trim, Hb. simpl.
  rewrite decide_False by done. simpl. split; [done|].
  eexists d, _. simpl. split_and!; try done.
  - simpl. by rewrite length_imap.
  - intros i row Hrow. simpl. rewrite list_lookup_imap, Hrow. simpl.
    eexists. split; [done|]. simpl. symmetry. apply insert_union_singleton_l.
Qed.

(** C8, as the code has it.  For a name that is not blank, [addColumn]
    alerts "Column already exists" and changes nothing exactly when the
    trimmed name is already a header (compared case-sensitively);
    otherwise it shows no dialog, appends the trimmed name to the
    canonical columns, gives every row the empty string under it, and
    makes it visible and last in the display order. *)
Theorem addColumn_duplicate_or_appended
    (name : string) (st : AppState) (d : SpreadsheetData) :
  data st = Some d → isBlank name = false →
  (addColumn name st = ([Alert "Column already exists"], st) ↔ trim name ∈ headers d) ∧
  (trim name ∉ headers d →
     (addColumn name st).1 = [] ∧ columnAdded (trim name) st (addColumn name st).2).
Proof.
  intros Hd Hb. split; [split|].
  - intros Halert. destruct (decide (trim name ∈ headers d)) as [|Hout]; [done|].
    destruct (addColumn_fresh name st d Hd Hb Hout) as [Hnil _].
    rewrite Halert in Hnil. discriminate.
  - by apply addColumn_duplicate.
  - by apply addColumn_fresh.
Qed.

Lemma addColumn_duplicate_or_appended_witness :
  (addColumn " A " Sample.loaded = ([Alert "Column already exists"], Sample.loaded)
     ↔ trim " A " ∈ ["A"; "B"]) ∧
  (trim " A " ∉ ["A"; "B"] →
     (addColumn " A " Sample.loaded).1 = [] ∧
     columnAdded (trim " A ") Sample.loaded (addColumn " A " Sample.loaded).2).
Proof.
  apply (addColumn_duplicate_or_appended " A " Sample.loaded
           (mkData 3 ["A"; "B"]
              [mkRow 1 (Sample.record "1" "x"); mkRow 2 (Sample.record "2" "y")]
              "people.csv" None)).
  - reflexivity.
  - reflexivity.
Defined.

(** C8 as stated fails on the empty name: it is not a header, yet no
    column is added. *)
Lemma addColumn_empty_name_not_added : ¬ addColumn_on_raw_name "" Sample.loaded.
Proof.
  intros Hclaim.
  destruct (Hclaim _ eq_refl) as [_ Hfresh].
  destruct Hfresh as [_ (d & d' & Hd & Hd' & Hh & _)].
  { vm_compute. intros H. by repeat (inversion H as [|? ? ? H']; subst; clear H; rename H' into H). }
  rewrite addColumn_blank in Hd' by done.
  change (data Sample.loaded = Some d') in Hd'.
  rewrite Hd in Hd'. injection Hd' as <-.
  apply (f_equal length) in Hh. rewrite length_app in Hh. simpl in Hh. lia.
Qed.

(** C10. [addColumn] works on the trimmed name only: a blank name shows
    no dialog and leaves the state alone, the argument matters only
    through its trimmed form, the duplicate check looks the trimmed name
    up, and the column that is added is the trimmed name (so a raw name
    with white space around it never enters the headers). *)
Theorem addColumn_trims_name (name : string) (st : AppState) :
  (isBlank name = true → addColumn name st = ([], st)) ∧
  addColumn name st = addColumn (trim name) st ∧
  (∀ d, data st = Some d → isBlank name = false →
     (trim name ∈ headers d →
        addColumn name st = ([Alert "Column already exists"], st)) ∧
     (trim name ∉ headers d →
        (addColumn name st).1 = [] ∧
        ∃ d', data (addColumn name st).2 = Some d' ∧
              headers d' = headers d ++ [trim name] ∧
              (name ≠ trim name → name ∉ headers d → name ∉ headers d') ∧
              ∀ row', row' ∈ rows d' → fields row' !! trim name = Some (CStr ""))).
Proof.
  split_and!.
  - apply addColumn_blank.
  - unfold addColumn. by rewrite trim_idem.
  - intros d Hd Hb. split; [by apply addColumn_duplicate|].
    intros Hout.
    destruct (addColumn_fresh name st d Hd Hb Hout)
      as [Hnil (d0 & d' & Hd0 & Hd' & Hh & Hlen & Hrows & _)].
    rewrite Hd in Hd0. injection Hd0 as <-.
    split; [done|]. exists d'. split_and!; [done..| |].
    + intros Hne Hraw. rewrite Hh.
      by intros [?|?%list_elem_of_singleton]%elem_of_app.
    + intros row' [i Hi]%list_elem_of_lookup.
      assert (i < length (rows d))%nat as Hlt.
      { rewrite <- Hlen. by eapply lookup_lt_Some. }
      destruct (lookup_lt_is_Some_2 _ _ Hlt) as [row Hrow].
      destruct (Hrows i row Hrow) as (row2 & Hrow2 & Hf).
      rewrite Hi in Hrow2. injection Hrow2 as <-.
      rewrite Hf. apply lookup_insert_eq.
Qed.

Lemma addColumn_trims_name_witness :
  addColumn "  " Sample.loaded = ([], Sample.loaded) ∧
  addColumn " C " Sample.loaded = addColumn "C" Sample.loaded.
Proof.
  destruct (addColumn_trims_name "  " Sample.loaded) as [Hblank _].
  destruct (addColumn_trims_name " C " Sample.loaded) as (_ & Htrim & _).
  split; [by apply Hblank | exact Htrim].
Defined.

End AddColumn.

(** ** The sort *)

Section Sorting.

Context {A : Type} (cmp : A → A → Z).

Lemma sortInsert_perm (x : A) (l : list A) : sortInsert cmp x l ≡ₚ x :: l.
Proof.
  induction l as [|y l IH]; simpl; [done|].
  destruct (decide (cmp x y <= 0)); [done|].
  rewrite IH. apply Permutation_swap.
Qed.

Lemma sort_perm (l : list A) : sort cmp l ≡ₚ l.
Proof.
  induction l as [|x l IH]; simpl; [done|].
  by rewrite sortInsert_perm, IH.
Qed.

Lemma sort_length (l : list A) : length (sort cmp l) = length l.
Proof. by rewrite sort_perm. Qed.

Lemma before_cons (a b y : A) (l : list A) : before a b l → before a b (y :: l).
Proof. intros (l1 & l2 & l3 & ->). by exists (y :: l1), l2, l3. Qed.

Lemma before_head (a b : A) (l : list A) : b ∈ l → before a b (a :: l).
Proof. intros (l2 & l3 & ->)%list_elem_of_split. by exists [], l2, l3. Qed.

Lemma before_cons_inv (a b y : A) (l : list A) :
  before a b (y :: l) → (a = y ∧ b ∈ l) ∨ before a b l.
Proof.
  intros (l1 & l2 & l3 & Heq). destruct l1 as [|z l1]; simpl in Heq.
  - injection Heq as -> ->. left. split; [done|].
    apply elem_of_app. right. by left.
  - injection Heq as -> ->. right. by exists l1, l2, l3.
Qed.

(** Inserting an element disturbs no pair that is already in place. *)
Lemma sortInsert_before_kept (x a b : A) (l : list A) :
  before a b l → before a b (sortInsert cmp x l).
Proof.
  induction l as [|y l IH]; simpl; intros Hab.
  - destruct Hab as (l1 & l2 & l3 & Heq). by destruct l1.
  - destruct (decide (cmp x y <= 0)); [by apply before_cons|].
    apply before_cons_inv in Hab as [[-> Hb]|Hab].
    + apply before_head. by rewrite sortInsert_perm, elem_of_cons; right.
    + by apply before_cons, IH.
Qed.

(** The inserted element stops in front of anything it compares equal to. *)
Lemma sortInsert_before_new (x b : A) (l : list A) :
  cmp x b = 0 → b ∈ l → before x b (sortInsert cmp x l).
Proof.
  intros Heq. induction l as [|y l IH]; simpl; intros Hb.
  - by apply elem_of_nil in Hb.
  - destruct (decide (cmp x y <= 0)) as [|Hgt]; [by apply before_head|].
    apply elem_of_cons in Hb as [->|Hb]; [lia|].
    by apply before_cons, IH.
Qed.

Lemma sort_stable (a b : A) (l : list A) :
  cmp a b = 0 → before a b l → before a b (sort cmp l).
Proof.
  intros Heq. induction l as [|y l IH]; simpl; intros Hab.
  - destruct Hab as (l1 & l2 & l3 & Hl). by destruct l1.
  - apply before_cons_inv in Hab as [[-> Hb]|Hab].
    + apply sortInsert_before_new; [done|]. by rewrite sort_perm.
    + by apply sortInsert_before_kept, IH.
Qed.

End Sorting.

(** ** The sort sorts *)

Section Sorted.

Context {A : Type} (cmp : A → A → Z) (P : A → Prop).

(** [cmp] is a consistent comparison on the elements that satisfy [P]. *)
Hypothesis cmp_total : ∀ x y, P x → P y → cmp x y <= 0 ∨ cmp y x <= 0.
Hypothesis cmp_trans : ∀ x y z, P x → P y → P z →
  cmp x y <= 0 → cmp y z <= 0 → cmp x z <= 0.

Lemma sortInsert_Forall (Q : A → Prop) (x : A) (l : list A) :
  Q x → Forall Q l → Forall Q (sortInsert cmp x l).
Proof. intros Hx Hl. rewrite sortInsert_perm. by constructor. Qed.

Lemma sortInsert_sorted (x : A) (l : list A) :
  P x → Forall P l →
  StronglySorted (λ a b, cmp a b <= 0) l →
  StronglySorted (λ a b, cmp a b <= 0) (sortInsert cmp x l).
Proof.
  intros Hx HP Hs. induction Hs as [|y l Hs IH Hy]; simpl.
  - repeat constructor.
  - apply Forall_cons in HP as [HPy HPl].
    destruct (decide (cmp x y <= 0)) as [Hle|Hgt].
    + apply SSorted_cons; [by apply SSorted_cons|].
      apply Forall_cons. split; [exact Hle|].
      apply Forall_forall. intros z Hz.
      apply (cmp_trans x y z); [done|done| |done|].
      * by eapply Forall_forall in HPl.
      * by eapply Forall_forall in Hy.
    + apply SSorted_cons; [by apply IH|].
      apply (sortInsert_Forall (λ b, cmp y b <= 0)); [|done].
      destruct (cmp_total x y Hx HPy); [done|done].
Qed.

Lemma sort_sorted (l : list A) :
  Forall P l → StronglySorted (λ a b, cmp a b <= 0) (sort cmp l).
Proof.
  induction 1 as [|x l Hx Hl IH]; simpl; [constructor|].
  apply sortInsert_sorted; [done| |done].
  by rewrite sort_perm.
Qed.

End Sorted.

(** ** The sort and the contract of the language *)

Section Contract.

Context {A : Type} (cmp : A → A → Z) (l : list A).
Hypothesis cmp_consistent : consistent cmp l.

(** A consistent comparator orders the elements totally. *)
Lemma consistent_total (x y : A) :
  x ∈ l → y ∈ l → cmp x y <= 0 ∨ cmp y x <= 0.
Proof.
  intros Hx Hy. destruct (cmp_consistent x y x Hx Hy Hx) as (? & _ & _ & _ & ?). lia.
Qed.

Lemma consistent_flip (x y : A) : x ∈ l → y ∈ l → cmp x y > 0 → cmp y x < 0.
Proof.
  intros Hx Hy Hgt.
  destruct (cmp_consistent x y x Hx Hy Hx) as (? & _ & _ & _ & ?).
  destruct (cmp_consistent y x y Hy Hx Hy) as (_ & ? & _ & _ & _). lia.
Qed.

Lemma consistent_trans (x y z : A) :
  x ∈ l → y ∈ l → z ∈ l → cmp x y <= 0 → cmp y z <= 0 → cmp x z <= 0.
Proof.
  intros Hx Hy Hz Hxy Hyz.
  destruct (Z_le_gt_dec (cmp x z) 0) as [|Hgt]; [done|].
  pose proof (consistent_flip x z Hx Hz Hgt) as Hzx.
  destruct (cmp_consistent x y z Hx Hy Hz) as (_ & _ & ? & ? & _).
  destruct (cmp_consistent z x y Hz Hx Hy) as (_ & _ & _ & ? & _).
  destruct (cmp_consistent y z x Hy Hz Hx) as (_ & _ & _ & ? & _).
  destruct (cmp_consistent z y z Hz Hy Hz) as (? & ? & _ & _ & _).
  destruct (cmp_consistent y x y Hy Hx Hy) as (? & ? & _ & _ & _).
  destruct (cmp_consistent y z y Hy Hz Hy) as (_ & ? & _ & _ & _).
  destruct (cmp_consistent x y x Hx Hy Hx) as (_ & ? & _ & _ & _).
  lia.
Qed.

End Contract.

Section Order.

Context {A : Type}.

Lemma before_elem_of (a b : A) (l : list A) : before a b l → a ∈ l ∧ b ∈ l.
Proof. intros (l1 & l2 & l3 & ->). set_solver. Qed.

(** In a list without repetition two elements stand one way round. *)
Lemma before_asym (a b : A) (l : list A) : NoDup l → before a b l → ¬ before b a l.
Proof.
  induction 1 as [|y l Hy Hl IH]; intros Hab Hba.
  - destruct Hab as (l1 & l2 & l3 & Heq). by destruct l1.
  - apply before_cons_inv in Hab as [[-> Hb]|Hab];
      apply before_cons_inv in Hba as [[-> Ha]|Hba].
    + done.
    + by apply before_elem_of in Hba as [_ ?].
    + by apply before_elem_of in Hab as [_ ?].
    + by apply IH.
Qed.

Lemma before_total (a b : A) (l : list A) :
  a ∈ l → b ∈ l → a ≠ b → before a b l ∨ before b a l.
Proof.
  induction l as [|y l IH]; intros Ha Hb Hne; [by apply elem_of_nil in Ha|].
  apply elem_of_cons in Ha as [->|Ha]; apply elem_of_cons in Hb as [->|Hb].
  - done.
  - left. by apply before_head.
  - right. by apply before_head.
  - destruct (IH Ha Hb Hne); [left|right]; by apply before_cons.
Qed.

(** Two arrangements of the same distinct elements that agree on which
    element stands before which are the same list. *)
Lemma before_ext (l1 l2 : list A) :
  NoDup l1 → l1 ≡ₚ l2 → (∀ a b, before a b l1 → before a b l2) → l1 = l2.
Proof.
  intros Hnd. revert l2. induction Hnd as [|x t Hx Ht IH]; intros l2 Hperm Hbefore.
  - by apply Permutation_nil_l.
  - destruct l2 as [|y u]; [by apply Permutation_nil_r in Hperm|].
    assert (NoDup (y :: u)) as [Hy Hu]%NoDup_cons by (rewrite <- Hperm; by constructor).
    assert (y = x) as ->.
    { assert (y ∈ x :: t) as [->|Hyt]%elem_of_cons by (rewrite Hperm; by left); [done|].
      destruct (before_cons_inv x y y u (Hbefore x y (before_head x y t Hyt)))
        as [[-> _]|Hxy]; [done|].
      by apply before_elem_of in Hxy as [_ ?]. }
    f_equal. apply IH; [by apply (Permutation_cons_inv Hperm)|].
    intros a b Hab.
    destruct (before_cons_inv a b x u (Hbefore a b (before_cons a b x t Hab)))
      as [[-> _]|Hab']; [|done].
    by apply before_elem_of in Hab as [? _].
Qed.

Lemma StronglySorted_before (R : A → A → Prop) (a b : A) (l : list A) :
  StronglySorted R l → before a b l → R a b.
Proof.
  induction 1 as [|y l Hs IH Hall]; intros Hab.
  - destruct Hab as (l1 & l2 & l3 & Heq). by destruct l1.
  - apply before_cons_inv in Hab as [[-> Hb]|Hab]; [|by apply IH].
    by eapply Forall_forall in Hall.
Qed.

(** The contract leaves no choice when the comparator is consistent and
    the elements are distinct: every engine returns what [sort] returns. *)
Lemma sortOrder_unique (cmp : A → A → Z) (l l1 l2 : list A) :
  consistent cmp l → NoDup l →
  sortOrder cmp l l1 → sortOrder cmp l l2 → l1 = l2.
Proof.
  intros Hcons Hnd [Hp1 H1] [Hp2 H2].
  destruct (H1 Hcons) as [Hs1 Hst1], (H2 Hcons) as [Hs2 Hst2].
  assert (NoDup l1) as Hnd1 by by rewrite Hp1.
  assert (NoDup l2) as Hnd2 by by rewrite Hp2.
  apply before_ext; [done|by rewrite Hp1, Hp2|].
  intros a b Hab.
  pose proof (before_elem_of a b l1 Hab) as [Ha Hb]. rewrite Hp1 in Ha, Hb.
  assert (a ≠ b) as Hne.
  { intros ->. by apply (before_asym b b l1). }
  destruct (before_total a b l2) as [|Hba2]; [by rewrite Hp2..|done|done|].
  pose proof (StronglySorted_before _ a b l1 Hs1 Hab) as Hle.
  pose proof (StronglySorted_before _ b a l2 Hs2 Hba2) as Hge. simpl in Hle, Hge.
  destruct (Hcons a b a Ha Hb Ha) as (Haa & Hsym & _ & Hlt & _).
  destruct (Hcons b a b Hb Ha Hb) as (_ & Hsym' & _ & _ & _).
  assert (cmp a b = 0 ∧ cmp b a = 0) as [Hab0 Hba0] by lia.
  destruct (before_total a b l Ha Hb Hne) as [Hl|Hl].
  - by apply Hst2.
  - by destruct (before_asym a b l1 Hnd1 Hab (Hst1 b a Hba0 Hl)).
Qed.

End Order.

(** The insertion sort keeps the contract, for every comparator. *)
Lemma sort_sortOrder {A} (cmp : A → A → Z) (l : list A) : sortOrder cmp l (sort cmp l).
Proof.
  split; [apply sort_perm|]. intros Hcons. split.
  - apply (sort_sorted cmp (λ x, x ∈ l)).
    + intros x y. by apply consistent_total.
    + intros x y z. by apply consistent_trans.
    + by apply Forall_forall.
  - intros a b. apply sort_stable.
Qed.

Lemma sortStage_perm (cfg : SortConfig) (rs : list DataRow) : sortStage cfg rs ≡ₚ rs.
Proof.
  unfold sortStage. destruct (key cfg) as [k|]; [|done].
  destruct (Js.truthy k); [apply sort_perm | done].
Qed.

(** On a column that holds only numbers, or no number at all, the
    comparison is a consistent order, so the view comes out sorted. *)

Lemma strLt_spec (s t : string) :
  Js.strLt s t = true ↔ OrderedTypeEx.String_as_OT.lt s t.
Proof.
  unfold Js.strLt. rewrite <- OrderedTypeEx.String_as_OT.cmp_lt.
  unfold OrderedTypeEx.String_as_OT.cmp. by destruct (String.compare s t).
Qed.

Lemma strLt_irrefl (s : string) : Js.strLt s s = false.
Proof.
  unfold Js.strLt.
  pose proof (proj2 (OrderedTypeEx.String_as_OT.cmp_eq s s) eq_refl) as Hrefl.
  unfold OrderedTypeEx.String_as_OT.cmp in Hrefl. by rewrite Hrefl.
Qed.

Lemma strLt_trans (s t u : string) :
  Js.strLt s t = true → Js.strLt t u = true → Js.strLt s u = true.
Proof. rewrite !strLt_spec. apply OrderedTypeEx.String_as_OT.lt_trans. Qed.

Lemma strLt_total (s t : string) :
  Js.strLt s t = false → Js.strLt t s = false → s = t.
Proof.
  unfold Js.strLt. rewrite (String.compare_antisym t s).
  destruct (String.compare s t) eqn:Hc; simpl; try discriminate.
  intros _ _. by apply String.compare_eq_iff.
Qed.

Lemma strLt_asym (s t : string) : Js.strLt s t = true → Js.strLt t s = false.
Proof.
  intros Hst. destruct (Js.strLt t s) eqn:Hts; [|done].
  pose proof (strLt_trans _ _ _ Hst Hts) as Hss. by rewrite strLt_irrefl in Hss.
Qed.

Lemma compareRows_numeric (k : string) (dir : Direction) (a b : DataRow) (x y : Z) :
  fields a !! k = Some (CNum x) → fields b !! k = Some (CNum y) →
  compareRows k dir a b = match dir with asc => x - y | desc => y - x end.
Proof.
  intros Ha Hb. unfold compareRows. rewrite Ha, Hb.
  destruct (decide _) as [[= ->]|]; [destruct dir; lia | done].
Qed.

Lemma compareRows_text (k : string) (dir : Direction) (a b : DataRow) :
  textColumn k a →
  compareRows k dir a b <= 0 ↔
  match dir with
  | asc => Js.strLt (sortKey k b) (sortKey k a) = false
  | desc => Js.strLt (sortKey k a) (sortKey k b) = false
  end.
Proof.
  intros Ha. unfold compareRows, sortKey.
  destruct (decide (fields a !! k = fields b !! k)) as [->|Hne].
  { rewrite strLt_irrefl. by destruct dir. }
  pose proof strLt_asym as Hasym.
  destruct (fields a !! k) as [[s|n|bo|]|] eqn:Hka;
    try (by destruct (Ha n));
    destruct (Js.strLt (Js.toLowerCase (text _)) (Js.toLowerCase (text (fields b !! k))))
      eqn:Hab;
    destruct (Js.strLt (Js.toLowerCase (text (fields b !! k))) _) eqn:Hba;
    try (apply Hasym in Hab; congruence);
    destruct dir; split; (done || lia).
Qed.

(** [s <= t] and [t <= u] give [s <= u], for [<=] read as "not greater". *)
Lemma strLe_trans (s t u : string) :
  Js.strLt t s = false → Js.strLt u t = false → Js.strLt u s = false.
Proof.
  intros Hst Htu. destruct (Js.strLt u s) eqn:Hus; [|done].
  destruct (Js.strLt s t) eqn:Hlt.
  - by rewrite (strLt_trans _ _ _ Hus Hlt) in Htu.
  - rewrite (strLt_total s t Hlt Hst) in Hus. congruence.
Qed.

Lemma sortStage_sorted (cfg : SortConfig) (k : string) (rs : list DataRow) :
  key cfg = Some k → Js.truthy k = true →
  Forall (numericColumn k) rs ∨ Forall (textColumn k) rs →
  StronglySorted (λ a b, compareRows k (direction cfg) a b <= 0) (sortStage cfg rs).
Proof.
  intros Hk Htruthy Hcol. unfold sortStage. rewrite Hk, Htruthy.
  destruct Hcol as [Hnum|Htext].
  - apply (sort_sorted _ (numericColumn k)); [| |done].
    + intros a b [x Ha] [y Hb].
      rewrite (compareRows_numeric k _ a b x y), (compareRows_numeric k _ b a y x) by done.
      destruct (direction cfg); lia.
    + intros a b c [x Ha] [y Hb] [z Hc].
      rewrite (compareRows_numeric k _ a b x y), (compareRows_numeric k _ b c y z),
        (compareRows_numeric k _ a c x z) by done.
      destruct (direction cfg); lia.
  - apply (sort_sorted _ (textColumn k)); [| |done].
    + intros a b Ha Hb. rewrite !compareRows_text by done.
      destruct (direction cfg).
      * destruct (Js.strLt (sortKey k b) (sortKey k a)) eqn:Hba; [|by left].
        right. by apply strLt_asym.
      * destruct (Js.strLt (sortKey k a) (sortKey k b)) eqn:Hab; [|by left].
        right. by apply strLt_asym.
    + intros a b c Ha Hb Hc. rewrite !compareRows_text by done.
      destruct (direction cfg).
      * apply strLe_trans.
      * intros Hab Hbc. by apply (strLe_trans _ (sortKey k b)).
Qed.

(** On a column that mixes numbers and text the comparison is not an
    order: 2 sorts before 10 as numbers, 10 before "1x" and "1x" before 2
    as text. *)
Example compareRows_mixed_cycle :
  let two := mkRow 1 {["A" := CNum 2]} in
  let ten := mkRow 2 {["A" := CNum 10]} in
  let text := mkRow 3 {["A" := CStr "1x"]} in
  compareRows "A" asc two ten < 0 ∧
  compareRows "A" asc ten text < 0 ∧
  compareRows "A" asc text two < 0.
Proof. by vm_compute. Qed.

(** The scenarios of the specification. *)
Example search_scenario :
  ref <$> filteredRows (dispatch (Search "y") Sample.loaded) = [2%nat].
Proof. by vm_compute. Qed.

Example sort_numbers_scenario :
  (λ r, fields r !! "A") <$>
    sortStage (mkSort 0 (Some "A") asc)
      [mkRow 1 {["A" := CNum 10]}; mkRow 2 {["A" := CNum 2]}]
  = [Some (CNum 2); Some (CNum 10)].
Proof. by vm_compute. Qed.

Example sort_strings_scenario :
  (λ r, fields r !! "A") <$>
    sortStage (mkSort 0 (Some "A") asc)
      [mkRow 1 {["A" := CStr "10"]}; mkRow 2 {["A" := CStr "2"]}]
  = [Some (CStr "10"); Some (CStr "2")].
Proof. by vm_compute. Qed.

(** The comparison calls two rows equal in one direction exactly when it
    does in the other. *)
Lemma compareRows_zero_direction (k : string) (a b : DataRow) :
  compareRows k asc a b = 0 ↔ compareRows k desc a b = 0.
Proof.
  unfold compareRows.
  destruct (decide (fields a !! k = fields b !! k)); [done|].
  destruct (fields a !! k) as [[]|], (fields b !! k) as [[]|];
    repeat (destruct (Js.strLt _ _)); split; (done || lia).
Qed.

(** The comparison on a column without numbers, read off the texts. *)
Lemma compareRows_text_value (k : string) (dir : Direction) (a b : DataRow) :
  textColumn k a →
  compareRows k dir a b =
  if Js.strLt (sortKey k a) (sortKey k b)
  then match dir with asc => -1 | desc => 1 end
  else if Js.strLt (sortKey k b) (sortKey k a)
       then match dir with asc => 1 | desc => -1 end
       else 0.
Proof.
  intros Ha. unfold compareRows, sortKey.
  destruct (decide (fields a !! k = fields b !! k)) as [->|Hne].
  { by rewrite strLt_irrefl. }
  destruct (fields a !! k) as [[s|n|bo|]|] eqn:Hka; try done; by destruct (Ha n).
Qed.

(** On a column that holds only numbers, or no number at all, the
    comparison is a consistent comparator, in both directions. *)
Lemma compareRows_consistent (k : string) (dir : Direction) (rs : list DataRow) :
  Forall (numericColumn k) rs ∨ Forall (textColumn k) rs →
  consistent (compareRows k dir) rs.
Proof.
  intros [Hnum|Htext] a b c Ha Hb Hc.
  - rewrite Forall_forall in Hnum.
    destruct (Hnum a Ha) as [x Hx], (Hnum b Hb) as [y Hy], (Hnum c Hc) as [z Hz].
    rewrite (compareRows_numeric k dir a a x x), (compareRows_numeric k dir a b x y),
      (compareRows_numeric k dir b a y x), (compareRows_numeric k dir b c y z),
      (compareRows_numeric k dir a c x z) by done.
    destruct dir; lia.
  - rewrite Forall_forall in Htext.
    rewrite !compareRows_text_value by auto. rewrite strLt_irrefl.
    pose proof (strLt_trans (sortKey k a) (sortKey k b) (sortKey k c)) as Habc.
    pose proof (strLt_trans (sortKey k c) (sortKey k b) (sortKey k a)) as Hcba.
    pose proof (strLt_asym (sortKey k a) (sortKey k b)) as Hab.
    pose proof (strLt_asym (sortKey k a) (sortKey k c)) as Hac.
    pose proof (strLt_total (sortKey k a) (sortKey k b)) as Hab'.
    pose proof (strLt_total (sortKey k b) (sortKey k c)) as Hbc'.
    pose proof (strLt_irrefl (sortKey k a)) as Haa.
    destruct (Js.strLt (sortKey k a) (sortKey k b)) eqn:E1,
             (Js.strLt (sortKey k b) (sortKey k a)) eqn:E2,
             (Js.strLt (sortKey k b) (sortKey k c)) eqn:E3,
             (Js.strLt (sortKey k c) (sortKey k b)) eqn:E4,
             (Js.strLt (sortKey k a) (sortKey k c)) eqn:E5,
             (Js.strLt (sortKey k c) (sortKey k a)) eqn:E6;
      destruct dir; split_and!; try done; try lia;
      exfalso; try (specialize (Habc eq_refl eq_refl)); try (specialize (Hcba eq_refl eq_refl));
      try (specialize (Hab eq_refl)); try (specialize (Hac eq_refl));
      try (specialize (Hab' eq_refl eq_refl)); try (specialize (Hbc' eq_refl eq_refl));
      congruence.
Qed.




(** ** The column filters *)

Lemma filter_filter_andb {A} (f g : A → bool) (l : list A) :
  List.filter f (List.filter g l) = List.filter (λ x, g x && f x) l.
Proof.
  induction l as [|x l IH]; simpl; [done|].
  destruct (g x); simpl; [|done]. destruct (f x); by rewrite IH.
Qed.

Lemma filter_true {A} (l : list A) : List.filter (λ _, true) l = l.
Proof. induction l as [|x l IH]; simpl; by rewrite ?IH. Qed.

Lemma filter_length_mono {A} (f g : A → bool) (l : list A) :
  (∀ x, f x = true → g x = true) →
  (length (List.filter f l) ≤ length (List.filter g l))%nat.
Proof.
  intros Himp. induction l as [|x l IH]; simpl; [done|].
  destruct (f x) eqn:Hf.
  - rewrite (Himp x Hf). simpl. lia.
  - destruct (g x); simpl; lia.
Qed.

Lemma filter_elem_of {A} (f : A → bool) (l : list A) (x : A) :
  x ∈ List.filter f l → x ∈ l.
Proof. rewrite !list_elem_of_In, List.filter_In. tauto. Qed.

Lemma foldl_filterStep (entries : list (string * gset string)) (rs : list DataRow) :
  foldl filterStep rs entries =
  List.filter
    (λ row, forallb (λ entry, bool_decide (size entry.2 = 0%nat)
                              || accepts entry.1 entry.2 row) entries) rs.
Proof.
  revert rs. induction entries as [|e entries IH]; intros rs; simpl.
  - by rewrite filter_true.
  - rewrite IH. unfold filterStep.
    destruct (decide (0 < size e.2)%nat) as [Hpos|Hzero].
    + rewrite filter_filter_andb. apply List.filter_ext. intros row.
      rewrite bool_decide_eq_false_2 by lia. done.
    + apply List.filter_ext. intros row.
      rewrite bool_decide_eq_true_2 by lia. done.
Qed.

(** The [forEach] over the filter entries keeps the rows that pass every
    filter, in their order. *)
Lemma filterStage_filter (cf : gmap string (gset string)) (rs : list DataRow) :
  filterStage cf rs = List.filter (passes cf) rs.
Proof. apply foldl_filterStep. Qed.

Lemma passes_spec (cf : gmap string (gset string)) (row : DataRow) :
  passes cf row = true ↔
  ∀ col values, cf !! col = Some values → values ≠ ∅ →
                text (fields row !! col) ∈ values.
Proof.
  unfold passes. rewrite forallb_forall. split.
  - intros Hall col values Hcol Hne.
    specialize (Hall (col, values)). simpl in Hall.
    rewrite <- list_elem_of_In, elem_of_map_to_list in Hall.
    specialize (Hall Hcol).
    apply orb_prop in Hall as [Hz|Hacc]; [|by apply bool_decide_eq_true in Hacc].
    apply bool_decide_eq_true, size_empty_iff in Hz. by apply leibniz_equiv in Hz.
  - intros Hall [col values] Hin%list_elem_of_In%elem_of_map_to_list. simpl.
    destruct (decide (values = ∅)) as [->|Hne].
    + by rewrite size_empty.
    + apply orb_true_intro. right. apply bool_decide_eq_true. by apply Hall.
Qed.

Lemma viewCount_filter (st : AppState) (d : SpreadsheetData) :
  data st = Some d →
  viewCount st =
  length (List.filter (passes (columnFilters st)) (searchStage (searchQuery st) (rows d))).
Proof.
  intros Hd. unfold viewCount, computeRows. rewrite Hd.
  by rewrite sortStage_perm, filterStage_filter.
Qed.

Lemma viewCount_mono (st st' : AppState) :
  data st' = data st → searchQuery st' = searchQuery st →
  (∀ row, passes (columnFilters st) row = true → passes (columnFilters st') row = true) →
  (viewCount st ≤ viewCount st')%nat.
Proof.
  intros Hd Hq Himp. destruct (data st) as [d|] eqn:Hdata.
  - rewrite (viewCount_filter st d), (viewCount_filter st' d), Hq by congruence.
    by apply filter_length_mono.
  - unfold viewCount. by rewrite Hd, Hdata.
Qed.

Lemma accepted_lookup (column : string) (st : AppState) (values : gset string) :
  columnFilters st !! column = Some values → accepted column st = values.
Proof. unfold accepted. by intros ->. Qed.

Lemma toggle_selects (column value : string) (st : AppState) :
  value ∉ accepted column st →
  columnFilters (toggleColumnFilterValue column value st) =
  <[column := accepted column st ∪ {[value]}]> (columnFilters st).
Proof.
  intros Hv. unfold toggleColumnFilterValue. fold (accepted column st). simpl.
  destruct (decide (value ∈ accepted column st)); [done|].
  destruct (decide _) as [Hz|]; [|done].
  apply size_empty_iff in Hz. set_solver.
Qed.

Lemma toggle_deselects (column value : string) (st : AppState) :
  value ∈ accepted column st →
  columnFilters (toggleColumnFilterValue column value st) =
  if decide (accepted column st = {[value]})
  then delete column (columnFilters st)
  else <[column := accepted column st ∖ {[value]}]> (columnFilters st).
Proof.
  intros Hv. unfold toggleColumnFilterValue. fold (accepted column st). simpl.
  destruct (decide (value ∈ accepted column st)); [|done].
  destruct (decide (accepted column st = {[value]})) as [Hone|Hmore].
  - rewrite decide_True; [done|]. rewrite Hone. apply size_empty_iff. set_solver.
  - rewrite decide_False; [done|]. intros Hz%size_empty_iff.
    apply Hmore. apply set_eq. intros x. split; [|set_solver].
    intros Hx. destruct (decide (x = value)) as [->|Hne]; set_solver.
Qed.

(** C5, as the code has it.  Selecting one more value in a filter that
    already has values never shows fewer rows, and selecting the first
    value of a column never shows more; deselecting a value while others
    stay selected never shows more rows, and deselecting the last one
    never shows fewer. *)
Theorem filter_toggle_monotone (column value : string) (st : AppState) :
  let st' := toggleColumnFilterValue column value st in
  (value ∉ accepted column st → accepted column st ≠ ∅ →
     (viewCount st ≤ viewCount st')%nat) ∧
  (value ∉ accepted column st → accepted column st = ∅ →
     (viewCount st' ≤ viewCount st)%nat) ∧
  (value ∈ accepted column st → accepted column st ≠ {[value]} →
     (viewCount st' ≤ viewCount st)%nat) ∧
  (value ∈ accepted column st → accepted column st = {[value]} →
     (viewCount st ≤ viewCount st')%nat).
Proof.
  intros st'. subst st'. split_and!; intros Hv Hacc.
  - (* one more value in a non-empty selection *)
    apply viewCount_mono; [done..|]. rewrite toggle_selects by done. intros row.
    rewrite !passes_spec. intros Hall col values Hcol Hne.
    destruct (decide (col = column)) as [->|Hcol'].
    + rewrite lookup_insert_eq in Hcol. injection Hcol as <-.
      apply elem_of_union_l. unfold accepted in *.
      destruct (columnFilters st !! column) as [vs|] eqn:Hvs; [|done].
      by apply Hall.
    + rewrite lookup_insert_ne in Hcol by done. by apply Hall.
  - (* the first value of a column *)
    apply viewCount_mono; [done..|]. rewrite toggle_selects by done. intros row.
    rewrite !passes_spec. intros Hall col values Hcol Hne.
    apply Hall; [|done]. rewrite lookup_insert_ne; [done|].
    intros <-. by rewrite (accepted_lookup _ _ _ Hcol) in Hacc.
  - (* one value less, others stay *)
    apply viewCount_mono; [done..|]. rewrite toggle_deselects by done.
    rewrite decide_False by done. intros row.
    rewrite !passes_spec. intros Hall col values Hcol Hne.
    destruct (decide (col = column)) as [->|Hcol'].
    + rewrite (accepted_lookup _ _ _ Hcol) in Hall, Hacc.
      specialize (Hall column (values ∖ {[value]})).
      rewrite lookup_insert_eq in Hall.
      assert (values ∖ {[value]} ≠ ∅) as Hrest.
      { intros Hempty. apply Hacc. apply set_eq. intros x. split; [|set_solver].
        intros Hx. destruct (decide (x = value)) as [->|Hxv]; set_solver. }
      specialize (Hall eq_refl Hrest). set_solver.
    + apply Hall; [|done]. by rewrite lookup_insert_ne.
  - (* the last value *)
    apply viewCount_mono; [done..|]. rewrite toggle_deselects by done.
    rewrite decide_True by done. intros row.
    rewrite !passes_spec. intros Hall col values Hcol Hne.
    apply lookup_delete_Some in Hcol as [_ Hcol]. by apply Hall.
Qed.

Lemma filter_toggle_monotone_witness :
  (viewCount Sample.filtered
   ≤ viewCount (toggleColumnFilterValue "A" "2" Sample.filtered))%nat.
Proof.
  destruct (filter_toggle_monotone "A" "2" Sample.filtered) as [Hmore _].
  apply Hmore.
  - apply (bool_decide_eq_false_1 ("2" ∈ accepted "A" Sample.filtered)).
    vm_compute. reflexivity.
  - intros H. apply (f_equal size) in H. vm_compute in H. discriminate.
Defined.

(** C5 as stated fails: with "1" selected in column A one row shows;
    selecting "2" as well shows two. *)
Lemma selecting_second_value_shows_more :
  ¬ selecting_never_shows_more "A" "2" Sample.filtered.
Proof.
  intros [Hadd _].
  assert ("2" ∉ accepted "A" Sample.filtered) as Hv.
  { apply (bool_decide_eq_false_1 ("2" ∈ accepted "A" Sample.filtered)).
    vm_compute. reflexivity. }
  specialize (Hadd Hv). vm_compute in Hadd. lia.
Qed.

(** ** Reachable states: the heap discipline and the memo cell *)

Lemma fmap_ref_imap {B} (base : nat) (g : nat → B → gmap string Cell) (l : list B) :
  ref <$> imap (λ i x, mkRow (base + i) (g i x)) l = seq base (length l).
Proof.
  revert base g. induction l as [|x l IH]; intros base g; simpl; [done|].
  rewrite Nat.add_0_r. f_equal.
  rewrite <- (IH (S base) (λ i, g (S i))). f_equal.
  apply imap_ext. intros i y _. simpl. f_equal. lia.
Qed.

Lemma elem_of_insert_inv {B} (l : list B) (i : nat) (x y : B) :
  y ∈ <[i := x]> l → y ∈ l ∨ y = x.
Proof.
  intros [j Hj]%list_elem_of_lookup.
  apply list_lookup_insert_Some in Hj as [(_ & -> & _)|[_ Hj]]; [by right|].
  left. apply list_elem_of_lookup. by exists j.
Qed.

Lemma NoDup_insert_fresh {B} (l : list B) (i : nat) (x : B) :
  NoDup l → x ∉ l → NoDup (<[i := x]> l).
Proof.
  intros Hnd. revert i. induction Hnd as [|y l Hy Hnd IH]; intros i Hx; simpl.
  - constructor.
  - apply not_elem_of_cons in Hx as [Hxy Hx]. destruct i as [|i]; simpl.
    + by constructor.
    + constructor; [|by apply IH].
      intros [Hin| ->]%elem_of_insert_inv; done.
Qed.

(** A handler that leaves the memo cell alone and gives fresh addresses
    to the objects it replaces keeps the cell sound. *)
Lemma memo_sound_step (st st' : AppState) :
  memo st' = memo st →
  (next_ref st ≤ next_ref st')%nat →
  (data st' = data st ∨ ∀ d', data st' = Some d' → (next_ref st ≤ data_ref d')%nat) →
  (sortConfig st' = sortConfig st ∨ (next_ref st ≤ sort_ref (sortConfig st'))%nat) →
  memo_sound st → memo_sound st'.
Proof.
  intros Hmemo Hnext Hdata Hsort (d0 & q0 & cf0 & s0 & Hm & Hd0 & Hs0 & Hsame_d & Hsame_s).
  exists d0, q0, cf0, s0. split_and!.
  - by rewrite Hmemo.
  - intros d Hd. specialize (Hd0 d Hd). lia.
  - lia.
  - destruct Hdata as [->|Hfresh]; [done|]. intros Heq.
    destruct (data st') as [d'|] eqn:Hd', d0 as [d|]; simplify_eq/=; [|done].
    specialize (Hd0 d eq_refl). specialize (Hfresh d' eq_refl). lia.
  - destruct Hsort as [->|Hfresh]; [done|]. intros Heq. lia.
Qed.

Lemma Inv_frame (st st' : AppState) :
  next_ref st' = next_ref st → data st' = data st →
  sortConfig st' = sortConfig st → memo st' = memo st →
  Inv st → Inv st'.
Proof.
  intros Hn Hd Hs Hm [[Hsort Hheap] Hmemo]. split.
  - unfold heap_ok. by rewrite Hn, Hd, Hs.
  - apply (memo_sound_step st); auto. lia.
Qed.

Lemma loadData_Inv hs records name id (st : AppState) :
  Inv st → Inv (loadData hs records name id st).
Proof.
  intros [[Hsort Hheap] Hmemo]. split.
  - split; simpl; [lia|]. intros d [= <-]. simpl.
    rewrite (fmap_ref_imap (next_ref st) (λ _ f, f)). split_and!; [lia|apply NoDup_seq|].
    intros r Hr. apply (list_elem_of_fmap_2 ref) in Hr.
    rewrite (fmap_ref_imap (next_ref st) (λ _ f, f)) in Hr.
    apply elem_of_seq in Hr. lia.
  - apply (memo_sound_step st); simpl; [done|lia| |by left|done].
    right. intros d' [= <-]. simpl. lia.
Qed.

Lemma toggleSort_Inv k (st : AppState) : Inv st → Inv (toggleSort k st).
Proof.
  intros [[Hsort Hheap] Hmemo]. split.
  - split; simpl; [lia|]. intros d Hd.
    destruct (Hheap d Hd) as (? & ? & Hrows). split_and!; [lia|done|].
    intros r Hr. specialize (Hrows r Hr). lia.
  - apply (memo_sound_step st); simpl; [done|lia|by left| |done].
    right. lia.
Qed.

Lemma saveChanges_Inv (st : AppState) : Inv st → Inv (saveChanges st).
Proof.
  intros HInv. unfold saveChanges.
  destruct (selectedIndex st) as [i|]; [|done].
  destruct (data st) as [d|] eqn:Hd; [|done].
  destruct (indexOfRow _ _) as [p|]; [|done].
  destruct (rows d !! p) as [old|] eqn:Hold; [|done].
  destruct HInv as [[Hsort Hheap] Hmemo].
  destruct (Hheap d Hd) as (Hdref & Hnd & Hrows). split.
  - split; simpl; [lia|]. intros d' [= <-]. simpl. split_and!; [lia| |].
    + rewrite list_fmap_insert. apply NoDup_insert_fresh; [done|]. simpl.
      intros (r & Hr & Hin)%list_elem_of_fmap. specialize (Hrows r Hin). lia.
    + intros r [Hin| ->]%elem_of_insert_inv.
      * specialize (Hrows r Hin). lia.
      * simpl. lia.
  - apply (memo_sound_step st); simpl; [done|lia| |by left|done].
    right. intros d' [= <-]. simpl. lia.
Qed.

Lemma addColumn_Inv name (st : AppState) : Inv st → Inv (addColumn name st).2.
Proof.
  intros HInv. unfold addColumn.
  destruct (data st) as [d|] eqn:Hd; [|done].
  destruct (negb _); [done|].
  destruct (decide _); [done|].
  destruct HInv as [[Hsort Hheap] Hmemo]. split.
  - split; simpl; [lia|]. intros d' [= <-]. simpl.
    assert (ref <$> imap (λ i row, spread (next_ref st + i) row
                                      {[Js.trim name := CStr ""]}) (rows d)
            = seq (next_ref st) (length (rows d))) as Hrefs.
    { apply (fmap_ref_imap (next_ref st) (λ _ row, {[Js.trim name := CStr ""]} ∪ fields row)). }
    rewrite Hrefs. split_and!; [lia|apply NoDup_seq|].
    intros r Hr. apply (list_elem_of_fmap_2 ref) in Hr. rewrite Hrefs in Hr.
    apply elem_of_seq in Hr. lia.
  - apply (memo_sound_step st); simpl; [done|lia| |by left|done].
    right. intros d' [= <-]. simpl. lia.
Qed.

Lemma resetApp_Inv (st : AppState) : Inv st → Inv (resetApp st).
Proof.
  intros [[Hsort Hheap] Hmemo]. split.
  - split; simpl; [done|]. intros d [=].
  - apply (memo_sound_step st); simpl; [done|lia| |by left|done].
    right. intros d' [=].
Qed.

Lemma handle_Inv (ev : Event) (st : AppState) : Inv st → Inv (handle ev st).2.
Proof.
  intros HInv. destruct ev; simpl;
    try (by apply (Inv_frame st)).
  - by apply loadData_Inv.
  - by apply toggleSort_Inv.
  - unfold navigateRecord. destruct (selectedIndex st); [|done].
    by apply (Inv_frame st).
  - by apply saveChanges_Inv.
  - by apply addColumn_Inv.
  - by apply resetApp_Inv.
Qed.

Lemma render_rendered (st : AppState) : rendered (render st).
Proof.
  unfold render, rendered.
  destruct (memo st) as [[d rs]|] eqn:Hm; [|by eexists].
  destruct (decide (d = deps st)) as [->|]; [|by eexists].
  exists rs. by rewrite Hm.
Qed.

Lemma render_Inv (st : AppState) : Inv st → Inv (render st).
Proof.
  intros HInv.
  assert (Inv (setMemo (Some (deps st, computeRows (data st) (searchQuery st)
                                        (columnFilters st) (sortConfig st))) st)) as Hnew.
  { destruct HInv as [[Hsort Hheap] _]. split; [done|].
    exists (data st), (searchQuery st), (columnFilters st), (sortConfig st).
    simpl. split_and!; try done.
    intros d Hd. by destruct (Hheap d Hd). }
  unfold render. destruct (memo st) as [[d rs]|]; [|done].
  by destruct (decide _).
Qed.

Lemma reachable_Inv (st : AppState) : reachable st → Inv st ∧ rendered st.
Proof.
  induction 1 as [|ev st _ [IH _]].
  - split; [|apply render_rendered]. unfold initial.
    split.
    + split; simpl; [lia|]. intros d [=].
    + exists None, "", ∅, (mkSort 0 None asc). simpl. split_and!; try done; lia.
  - split; [|apply render_rendered]. by apply render_Inv, handle_Inv.
Qed.

(** After a render the view is the pipeline run on the current dataset,
    query and sort configuration, and on the column filters of the last
    render that recomputed. *)
Lemma filteredRows_pipeline (st : AppState) :
  reachable st →
  ∃ cf0, filteredRows st =
         computeRows (data st) (searchQuery st) cf0 (sortConfig st).
Proof.
  intros [[_ (d0 & q0 & cf0 & s0 & Hm & _ & _ & Hd & Hs)] [rs Hr]]%reachable_Inv.
  rewrite Hm in Hr. unfold deps in Hr. injection Hr as Hd0 Hq0 Hs0 <-.
  exists cf0. unfold filteredRows. rewrite Hm.
  by rewrite (Hd Hd0), Hq0, (Hs Hs0).
Qed.

Lemma reachable_run (evs : list Event) (st : AppState) :
  reachable st → reachable (run evs st).
Proof.
  revert st. induction evs as [|ev evs IH]; intros st Hst; [done|].
  simpl. apply IH. by constructor.
Qed.

(** ** The memoised view after a change of the column filters *)

Lemma render_data (st : AppState) : data (render st) = data st.
Proof.
  unfold render. destruct (memo st) as [[d rs]|]; [|done]. by destruct (decide _).
Qed.

Lemma render_pendingChanges (st : AppState) :
  pendingChanges (render st) = pendingChanges st.
Proof.
  unfold render. destruct (memo st) as [[d rs]|]; [|done]. by destruct (decide _).
Qed.

Lemma render_selectedIndex (st : AppState) :
  selectedIndex (render st) = selectedIndex st.
Proof.
  unfold render. destruct (memo st) as [[d rs]|]; [|done]. by destruct (decide _).
Qed.

Lemma render_searchQuery (st : AppState) : searchQuery (render st) = searchQuery st.
Proof.
  unfold render. destruct (memo st) as [[d rs]|]; [|done]. by destruct (decide _).
Qed.

Lemma render_columnFilters (st : AppState) :
  columnFilters (render st) = columnFilters st.
Proof.
  unfold render. destruct (memo st) as [[d rs]|]; [|done]. by destruct (decide _).
Qed.

Lemma render_sortConfig (st : AppState) : sortConfig (render st) = sortConfig st.
Proof.
  unfold render. destruct (memo st) as [[d rs]|]; [|done]. by destruct (decide _).
Qed.

Lemma render_id (st : AppState) : rendered st → render st = st.
Proof. intros [rs Hm]. unfold render. rewrite Hm. by rewrite decide_True. Qed.

(** Toggling a filter value changes none of the three dependencies, so
    the render that follows keeps the cached rows. *)
Lemma filter_toggle_keeps_view (column value : string) (st : AppState) :
  rendered st →
  filteredRows (dispatch (ToggleColumnFilterValue column value) st) = filteredRows st.
Proof.
  intros Hr. unfold dispatch. simpl. by rewrite render_id.
Qed.

(** A render whose dependencies differ from the cached ones runs the
    pipeline on the current inputs, column filters included. *)
Lemma render_recomputes (st : AppState) :
  ¬ rendered st →
  filteredRows (render st) =
  computeRows (data st) (searchQuery st) (columnFilters st) (sortConfig st).
Proof.
  intros Hstale. unfold render, filteredRows.
  destruct (memo st) as [[d rs]|] eqn:Hm; [|done].
  destruct (decide (d = deps st)) as [->|]; [|done].
  destruct Hstale. by exists rs.
Qed.

(** So a pending filter change shows at the next change of the sort. *)
Lemma toggleSort_view_current (k : string) (st : AppState) :
  reachable st →
  let st' := dispatch (ToggleSort k) st in
  filteredRows st' =
  computeRows (data st') (searchQuery st') (columnFilters st') (sortConfig st').
Proof.
  intros [[_ (d0 & q0 & cf0 & s0 & Hm & _ & Hs0 & _)] [rs Hr]]%reachable_Inv st'.
  subst st'. unfold dispatch. simpl.
  rewrite render_data, render_searchQuery, render_columnFilters, render_sortConfig.
  apply render_recomputes.
  intros [rs' Hr']. simpl in Hr'. rewrite Hm in Hr'. unfold deps in Hr'. simpl in Hr'.
  injection Hr' as _ _ Href. lia.
Qed.

(** C1. The rendered rows are not the pipeline of the current inputs
    right after a change of the column filters: with the two-record sheet
    loaded, selecting "1" in the filter of column A stores the filter, the
    pipeline on the current inputs gives the first record only, and the
    table still shows both. *)
Theorem filter_change_not_rendered :
  let st := dispatch (ToggleColumnFilterValue "A" "1") Sample.loaded in
  columnFilters st = {["A" := {["1"]}]} ∧
  ref <$> computeRows (data st) (searchQuery st) (columnFilters st) (sortConfig st)
    = [1%nat] ∧
  ref <$> filteredRows st = [1%nat; 2%nat] ∧
  filteredRows st ≠
    computeRows (data st) (searchQuery st) (columnFilters st) (sortConfig st).
Proof.
  assert (ref <$> computeRows (data Sample.filtered) (searchQuery Sample.filtered)
                    (columnFilters Sample.filtered) (sortConfig Sample.filtered)
          = [1%nat]) as Hfresh by (by vm_compute).
  assert (ref <$> filteredRows Sample.filtered = [1%nat; 2%nat]) as Hshown
    by (by vm_compute).
  split_and!; [by vm_compute|done..|].
  intros Heq. fold Sample.filtered in Heq.
  rewrite Heq, Hfresh in Hshown. discriminate.
Qed.

(** ** The record editor *)

Lemma at_of_nat {A} (l : list A) (i : nat) : at_ l (Z.of_nat i) = l !! i.
Proof. unfold at_. rewrite decide_True by lia. by rewrite Nat2Z.id. Qed.

Lemma searchStage_elem_of (q : string) (rs : list DataRow) (r : DataRow) :
  r ∈ searchStage q rs → r ∈ rs.
Proof.
  unfold searchStage. destruct (Js.truthy q); [apply filter_elem_of | done].
Qed.

(** Every row of the view is a row object of the dataset. *)
Lemma computeRows_elem_of d q cf s (r : DataRow) :
  r ∈ computeRows (Some d) q cf s → r ∈ rows d.
Proof.
  unfold computeRows. rewrite sortStage_perm, filterStage_filter.
  intros Hr%filter_elem_of. by eapply searchStage_elem_of.
Qed.

Lemma filteredRows_elem_of (st : AppState) (d : SpreadsheetData) (r : DataRow) :
  reachable st → data st = Some d → r ∈ filteredRows st → r ∈ rows d.
Proof.
  intros [cf0 Hview]%filteredRows_pipeline Hd. rewrite Hview, Hd.
  apply computeRows_elem_of.
Qed.

(** [indexOf] finds an object at the one position where it is stored,
    whatever the other rows contain. *)
Lemma indexOfRow_lookup (l : list DataRow) (p : nat) (t : DataRow) :
  NoDup (ref <$> l) → l !! p = Some t → indexOfRow l (Some t) = Some p.
Proof.
  revert p. induction l as [|r l IH]; intros p Hnd Hp; [done|].
  apply NoDup_cons in Hnd as [Hr Hnd]. simpl. destruct p as [|p]; simpl in Hp.
  - injection Hp as ->. by rewrite decide_True.
  - rewrite decide_False.
    + by rewrite (IH p).
    + intros Heq. apply Hr. rewrite Heq.
      apply list_elem_of_fmap_2, list_elem_of_lookup. by exists p.
Qed.

Lemma indexOfRow_None (l : list DataRow) : indexOfRow l None = None.
Proof. by destruct l. Qed.

Lemma saveChanges_selected (st : AppState) (d : SpreadsheetData)
    (i : Z) (p : nat) (target : DataRow) :
  heap_ok st → data st = Some d → selectedIndex st = Some i →
  at_ (filteredRows st) i = Some target → rows d !! p = Some target →
  saveChanges st = committed st d p target.
Proof.
  intros [_ Hheap] Hd Hsel Hat Hp. destruct (Hheap d Hd) as (_ & Hnd & _).
  unfold saveChanges. rewrite Hsel, Hd, Hat.
  by rewrite (indexOfRow_lookup _ p), Hp.
Qed.

(** [saveChanges] is all or nothing. *)
Lemma saveChanges_atomic (st : AppState) :
  saveChanges st = st ∨
  ∃ d p old, data st = Some d ∧ rows d !! p = Some old ∧
             saveChanges st = committed st d p old.
Proof.
  unfold saveChanges.
  destruct (selectedIndex st) as [i|]; [|by left].
  destruct (data st) as [d|]; [|by left].
  destruct (indexOfRow _ _) as [p|]; [|by left].
  destruct (rows d !! p) as [old|] eqn:Hold; [|by left].
  right. by exists d, p, old.
Qed.

Lemma handleRowClick_rendered (index : Z) (st : AppState) :
  rendered st → rendered (handleRowClick index st).
Proof. done. Qed.

Lemma handleFieldUpdate_rendered (header value : string) (st : AppState) :
  rendered st → rendered (handleFieldUpdate header value st).
Proof. done. Qed.

(** C2. Commit correctness.  In a reachable state, opening row [i] of the
    view, editing its field [col] to [v] and saving replaces, at the one
    canonical position [p] that holds the opened row, that row by one
    that has [v] under [col] and the old value under every other column;
    every other row, the headers and the file name are as before.
    Saving with no record selected changes nothing, and saving in any
    state either changes nothing or applies the whole buffer to one row. *)
Theorem commit_correct (st : AppState) (d : SpreadsheetData) (i : nat)
    (col v : string) (target : DataRow) :
  reachable st → data st = Some d → filteredRows st !! i = Some target →
  let st' := dispatch Save (dispatch (FieldUpdate col v) (dispatch (RowClick i) st)) in
  (∃ p d' new,
     rows d !! p = Some target ∧ data st' = Some d' ∧
     headers d' = headers d ∧ fileName d' = fileName d ∧ fileId d' = fileId d ∧
     length (rows d') = length (rows d) ∧
     rows d' !! p = Some new ∧
     fields new !! col = Some (CStr v) ∧
     (∀ c, c ≠ col → fields new !! c = fields target !! c) ∧
     (∀ q, q ≠ p → rows d' !! q = rows d !! q)) ∧
  (∀ s, selectedIndex s = None → saveChanges s = s) ∧
  (∀ s, saveChanges s = s ∨
        ∃ d0 p old, data s = Some d0 ∧ rows d0 !! p = Some old ∧
                    saveChanges s = committed s d0 p old).
Proof.
  intros Hreach Hd Hi st'. split_and!.
  - assert (reachable (dispatch (FieldUpdate col v) (dispatch (RowClick i) st)))
      as Hreach2 by (by do 2 constructor).
    destruct (reachable_Inv _ Hreach) as [_ Hrendered].
    destruct (reachable_Inv _ Hreach2) as [[Hheap _] _].
    assert (dispatch (FieldUpdate col v) (dispatch (RowClick i) st)
            = handleFieldUpdate col v (handleRowClick (Z.of_nat i) st)) as Hst2.
    { unfold dispatch. simpl.
      rewrite (render_id (handleRowClick _ _)) by (by apply handleRowClick_rendered).
      apply render_id. by apply handleFieldUpdate_rendered, handleRowClick_rendered. }
    rewrite Hst2 in Hheap.
    assert (target ∈ rows d) as [p Hp]%list_elem_of_lookup.
    { apply (filteredRows_elem_of st); [done..|].
      apply list_elem_of_lookup. by exists i. }
    assert (st' = render (committed (handleFieldUpdate col v
                                       (handleRowClick (Z.of_nat i) st)) d p target))
      as ->.
    { subst st'. rewrite Hst2. unfold dispatch. simpl. f_equal.
      apply (saveChanges_selected _ d (Z.of_nat i)); [exact Hheap|exact Hd|reflexivity| |exact Hp].
      change (at_ (filteredRows st) (Z.of_nat i) = Some target).
      by rewrite at_of_nat. }
    eexists p, _, (spread _ target _). rewrite render_data. simpl.
    split; [exact Hp|]. split; [reflexivity|]. simpl.
    split_and!; try reflexivity.
    + by rewrite length_insert.
    + apply list_lookup_insert_eq. by eapply lookup_lt_Some.
    + apply lookup_union_Some_l, lookup_insert_eq.
    + intros c Hc. apply lookup_union_r. by rewrite lookup_insert_ne.
    + intros q Hq. by apply list_lookup_insert_ne.
  - intros s Hs. unfold saveChanges. by rewrite Hs.
  - apply saveChanges_atomic.
Qed.

Lemma commit_correct_witness :
  ∃ p d' new,
    rows Sample.sheet !! p = Some Sample.second ∧
    data (dispatch Save (dispatch (FieldUpdate "B" "zz")
                           (dispatch (RowClick 1) Sample.loaded))) = Some d' ∧
    headers d' = headers Sample.sheet ∧ fileName d' = fileName Sample.sheet ∧
    fileId d' = fileId Sample.sheet ∧
    length (rows d') = length (rows Sample.sheet) ∧
    rows d' !! p = Some new ∧
    fields new !! "B" = Some (CStr "zz") ∧
    (∀ c, c ≠ "B" → fields new !! c = fields Sample.second !! c) ∧
    (∀ q, q ≠ p → rows d' !! q = rows Sample.sheet !! q).
Proof.
  apply (commit_correct Sample.loaded Sample.sheet 1 "B" "zz" Sample.second).
  - apply reachable_dispatch, reachable_initial.
  - reflexivity.
  - reflexivity.
Defined.

(** C3. Commit resolves the opened row by identity.  In a reachable state
    where the opened view row is the object stored at position [p] of the
    dataset, saving applies the buffer to position [p]; a row at another
    position [q] with exactly the same content is left as it is. *)
Theorem commit_by_identity (st : AppState) (d : SpreadsheetData) (i : Z)
    (p q : nat) (target other : DataRow) :
  reachable st → data st = Some d → selectedIndex st = Some i →
  at_ (filteredRows st) i = Some target →
  rows d !! p = Some target → rows d !! q = Some other → p ≠ q →
  fields other = fields target →
  ∃ d' new,
    data (dispatch Save st) = Some d' ∧
    rows d' !! p = Some new ∧
    fields new = pendingChanges st ∪ fields target ∧
    rows d' !! q = Some other.
Proof.
  intros Hreach Hd Hsel Hat Hp Hq Hpq _.
  destruct (reachable_Inv _ Hreach) as [[Hheap _] _].
  unfold dispatch. simpl. rewrite render_data.
  rewrite (saveChanges_selected st d i p target Hheap Hd Hsel Hat Hp).
  eexists _, (spread _ target _). simpl. split; [reflexivity|]. simpl.
  split_and!; [|reflexivity|].
  - apply list_lookup_insert_eq. by eapply lookup_lt_Some.
  - by rewrite list_lookup_insert_ne.
Qed.

Lemma commit_by_identity_witness :
  ∃ d' new,
    data (dispatch Save Sample.twins) = Some d' ∧
    rows d' !! 1%nat = Some new ∧
    fields new = pendingChanges Sample.twins ∪ fields Sample.twin2 ∧
    rows d' !! 0%nat = Some Sample.twin1.
Proof.
  apply (commit_by_identity Sample.twins Sample.twinSheet 1 1 0
           Sample.twin2 Sample.twin1).
  - apply reachable_run, reachable_initial.
  - reflexivity.
  - reflexivity.
  - reflexivity.
  - reflexivity.
  - reflexivity.
  - lia.
  - reflexivity.
Defined.

Lemma navigateRecord_discards (dir : NavDirection) (st : AppState) (i : Z) :
  selectedIndex st = Some i →
  pendingChanges (navigateRecord dir st) = ∅ ∧
  data (navigateRecord dir st) = data st.
Proof. intros Hsel. unfold navigateRecord. by rewrite Hsel. Qed.

(** C6. Unsaved edits vanish without a decision.  With the first record
    open and its field B edited but not saved, going to the next record,
    clicking another row, or closing the panel each shows no dialog,
    empties the buffer and leaves the dataset as it was: the edit is
    neither committed nor kept. *)
Theorem unsaved_edit_dropped :
  let st := Sample.editing in
  pendingChanges st = {["B" := CStr "changed"]} ∧
  selectedIndex st = Some 0 ∧
  (∀ ev, ev ∈ [Navigate next; RowClick 1; ClosePanel] →
     (handle ev st).1 = [] ∧
     pendingChanges (dispatch ev st) = ∅ ∧
     data (dispatch ev st) = data st) ∧
  selectedIndex (dispatch (Navigate next) st) = Some 1 ∧
  selectedIndex (dispatch (RowClick 1) st) = Some 1.
Proof.
  intros st. subst st. split; [vm_compute; reflexivity|].
  split; [vm_compute; reflexivity|]. split.
  - intros ev Hev.
    repeat (apply elem_of_cons in Hev as [->|Hev]);
      [split_and!; vm_compute; reflexivity..|].
    by apply elem_of_nil in Hev.
  - split; vm_compute; reflexivity.
Qed.

(** * Further properties of the component *)

(** ** Column filters *)

Lemma setColumnFilters_same (st : AppState) :
  setColumnFilters (columnFilters st) st = st.
Proof. by destruct st. Qed.

Lemma setColumnFilters_twice (a b : gmap string (gset string)) (st : AppState) :
  setColumnFilters a (setColumnFilters b st) = setColumnFilters a st.
Proof. done. Qed.

Lemma toggleColumnFilterValue_set (column value : string) (st : AppState) :
  toggleColumnFilterValue column value st =
  setColumnFilters (columnFilters (toggleColumnFilterValue column value st)) st.
Proof. done. Qed.

Lemma accepted_setColumnFilters (column : string) (cf : gmap string (gset string))
    (st : AppState) :
  accepted column (setColumnFilters cf st) = default ∅ (cf !! column).
Proof. done. Qed.

(** X1. Toggling the same filter value twice gives back the state, as
    long as the column is not stored with an empty set of values. *)
Theorem toggleColumnFilterValue_twice (column value : string) (st : AppState) :
  columnFilters st !! column ≠ Some ∅ →
  toggleColumnFilterValue column value (toggleColumnFilterValue column value st) = st.
Proof.
  intros Hne.
  rewrite (toggleColumnFilterValue_set column value (toggleColumnFilterValue _ _ _)).
  rewrite (toggleColumnFilterValue_set column value st) at 2.
  rewrite setColumnFilters_twice.
  rewrite <- (setColumnFilters_same st) at 3. f_equal.
  destruct (decide (value ∈ accepted column st)) as [Hin|Hout].
  - assert (columnFilters st !! column = Some (accepted column st)) as Hcol.
    { unfold accepted in *. destruct (columnFilters st !! column); [done|set_solver]. }
    rewrite toggle_selects.
    + rewrite (toggle_deselects column value st Hin).
      destruct (decide (accepted column st = {[value]})) as [Hone|Hmore].
      * rewrite (toggleColumnFilterValue_set column value st), accepted_setColumnFilters.
        rewrite (toggle_deselects column value st Hin), decide_True by done.
        rewrite lookup_delete_eq. simpl. rewrite insert_delete_eq.
        apply insert_id. rewrite Hcol, Hone. f_equal. set_solver.
      * rewrite (toggleColumnFilterValue_set column value st), accepted_setColumnFilters.
        rewrite (toggle_deselects column value st Hin), decide_False by done.
        rewrite lookup_insert_eq. simpl. rewrite insert_insert_eq.
        apply insert_id. rewrite Hcol. f_equal.
        apply set_eq. intros x. destruct (decide (x = value)) as [->|]; set_solver.
    + rewrite (toggleColumnFilterValue_set column value st), accepted_setColumnFilters.
      rewrite (toggle_deselects column value st Hin).
      destruct (decide _).
      * rewrite lookup_delete_eq. set_solver.
      * rewrite lookup_insert_eq. set_solver.
  - assert (value ∈ accepted column (toggleColumnFilterValue column value st)) as Hin'.
    { rewrite (toggleColumnFilterValue_set column value st), accepted_setColumnFilters.
      rewrite (toggle_selects column value st Hout), lookup_insert_eq. set_solver. }
    rewrite (toggle_deselects _ _ _ Hin').
    rewrite (toggleColumnFilterValue_set column value st), accepted_setColumnFilters.
    rewrite (toggle_selects column value st Hout), lookup_insert_eq. simpl.
    destruct (decide (accepted column st ∪ {[value]} = {[value]})) as [Hone|Hmore].
    + rewrite delete_insert_eq. apply delete_id.
      unfold accepted in *. destruct (columnFilters st !! column) as [vs|] eqn:Hvs; [|done].
      simpl in *. destruct Hne. f_equal. apply set_eq. intros x.
      split; [|set_solver]. intros Hx. assert (x = value) as -> by set_solver. done.
    + rewrite insert_insert_eq. apply insert_id.
      unfold accepted in *. destruct (columnFilters st !! column) as [vs|] eqn:Hvs.
      * simpl in *. f_equal. set_solver.
      * simpl in *. destruct Hmore. set_solver.
Qed.

Lemma toggleColumnFilterValue_twice_witness :
  toggleColumnFilterValue "A" "2" (toggleColumnFilterValue "A" "2" Sample.filtered)
  = Sample.filtered.
Proof.
  apply (toggleColumnFilterValue_twice "A" "2" Sample.filtered).
  intros H. vm_compute in H. discriminate.
Defined.

Lemma render_filters_of_handle (ev : Event) (st : AppState) :
  columnFilters (dispatch ev st) = columnFilters (handle ev st).2.
Proof. apply render_columnFilters. Qed.

Lemma handle_columnFilters (ev : Event) (st : AppState) :
  (∀ column value, ev ≠ ToggleColumnFilterValue column value) →
  (∀ column, ev ≠ ClearColumnFilter column) →
  columnFilters (handle ev st).2 = columnFilters st.
Proof.
  intros Htoggle Hclear. destruct ev; simpl; try done.
  - by destruct (Htoggle column value).
  - by destruct (Hclear column).
  - unfold navigateRecord. by destruct (selectedIndex st).
  - destruct (saveChanges_atomic st) as [->|(d & p & old & _ & _ & ->)]; done.
  - unfold addColumn. destruct (data st); [|done].
    destruct (negb _); [done|]. by destruct (decide _).
Qed.

(** X2. No reachable state stores an empty set of accepted values: a
    column whose last value is deselected leaves the filter map. *)
Theorem filters_never_empty (st : AppState) (column : string) (values : gset string) :
  reachable st → columnFilters st !! column = Some values → values ≠ ∅.
Proof.
  intros Hreach. revert column values.
  induction Hreach as [|ev st Hreach IH]; intros column values.
  - by vm_compute.
  - rewrite render_filters_of_handle.
    destruct ev; try (rewrite handle_columnFilters by done; apply IH).
    + simpl. unfold toggleColumnFilterValue. simpl.
      destruct (decide (size _ = 0%nat)) as [Hz|Hnz].
      * intros [_ Hcol]%lookup_delete_Some. by eapply IH.
      * intros [[_ <-]|[_ Hcol]]%lookup_insert_Some.
        -- intros Hempty. apply Hnz. rewrite Hempty. apply size_empty.
        -- by eapply IH.
    + simpl. intros [_ Hcol]%lookup_delete_Some. by eapply IH.
Qed.

Lemma filters_never_empty_witness : ({[ "1" ]} : gset string) ≠ ∅.
Proof.
  apply (filters_never_empty Sample.filtered "A" {["1"]}).
  - apply reachable_dispatch, reachable_dispatch, reachable_initial.
  - by vm_compute.
Defined.

(** X3. Clearing the filter of a column never hides a row: the view the
    inputs give has at least as many rows as before, the column has no
    accepted value left, and the other columns keep theirs. *)
Theorem clearColumnFilter_shows_more (column : string) (st : AppState) :
  (viewCount st ≤ viewCount (clearColumnFilter column st))%nat ∧
  accepted column (clearColumnFilter column st) = ∅ ∧
  ∀ other, other ≠ column →
    accepted other (clearColumnFilter column st) = accepted other st.
Proof.
  split_and!.
  - apply viewCount_mono; [done..|]. intros row. rewrite !passes_spec.
    intros Hall col values Hcol. unfold clearColumnFilter in Hcol. simpl in Hcol.
    apply lookup_delete_Some in Hcol as [_ Hcol]. by apply Hall.
  - unfold accepted, clearColumnFilter. simpl. by rewrite lookup_delete_eq.
  - intros other Hne. unfold accepted, clearColumnFilter. simpl.
    by rewrite lookup_delete_ne.
Qed.

(** ** Sorting *)

(** X4. Clicking a header sorts by it; the direction is descending
    exactly when the column was already sorted ascending, so repeated
    clicks on one header alternate, and a click on another header starts
    ascending again. *)
Theorem toggleSort_alternates (k : string) (st : AppState) :
  key (sortConfig (toggleSort k st)) = Some k ∧
  (direction (sortConfig (toggleSort k st)) = desc ↔
     key (sortConfig st) = Some k ∧ direction (sortConfig st) = asc) ∧
  direction (sortConfig (toggleSort k (toggleSort k st)))
    ≠ direction (sortConfig (toggleSort k st)) ∧
  direction (sortConfig (toggleSort k (toggleSort k (toggleSort k st))))
    = direction (sortConfig (toggleSort k st)) ∧
  ∀ k', k' ≠ k →
    direction (sortConfig (toggleSort k' (toggleSort k st))) = asc.
Proof.
  unfold toggleSort. simpl. split_and!.
  - done.
  - destruct (decide _) as [[? ?]|Hn]; [done|]. split; [done|]. intros []. by destruct Hn.
  - destruct (decide (key (sortConfig st) = Some k ∧ _)) as [?|?];
      [rewrite decide_False by (intros [_ ?]; done)
      |rewrite decide_True by done]; done.
  - destruct (decide (key (sortConfig st) = Some k ∧ _)) as [?|?].
    + rewrite (decide_False (P := Some k = Some k ∧ desc = asc)) by (intros [_ ?]; done).
      by rewrite decide_True.
    + rewrite (decide_True (P := Some k = Some k ∧ asc = asc)) by done.
      by rewrite decide_False by (intros [_ ?]; done).
  - intros k' Hk'. rewrite decide_False; [done|]. intros [[= ->] _]. done.
Qed.

Lemma handle_sortConfig (ev : Event) (st : AppState) :
  sortConfig (handle ev st).2 = sortConfig st ∨
  ∃ k, key (sortConfig (handle ev st).2) = Some k.
Proof.
  destruct ev; simpl; try (by left).
  - right. by exists k.
  - left. unfold navigateRecord. by destruct (selectedIndex st).
  - left. destruct (saveChanges_atomic st) as [->|(d & p & old & _ & _ & ->)]; done.
  - left. unfold addColumn. destruct (data st); [|done].
    destruct (negb _); [done|]. by destruct (decide _).
Qed.

(** X5. Once a sort key is set it is never [null] again: no event, not
    even the return to the import screen or a new import, resets the
    sort key to none. *)
Theorem sort_key_sticky (evs : list Event) (st : AppState) :
  key (sortConfig st) ≠ None → key (sortConfig (run evs st)) ≠ None.
Proof.
  revert st. induction evs as [|ev evs IH]; intros st Hkey; [done|].
  simpl. apply IH. unfold dispatch. rewrite render_sortConfig.
  destruct (handle_sortConfig ev st) as [->|[k ->]]; done.
Qed.

Lemma sort_key_sticky_witness :
  key (sortConfig (run [Reset; Load ["Z"] [] "other.csv" None] Demo.sorted)) ≠ None.
Proof.
  apply (sort_key_sticky [Reset; Load ["Z"] [] "other.csv" None] Demo.sorted).
  vm_compute. discriminate.
Defined.

Lemma filter_Forall {A} (P : A → Prop) (f : A → bool) (l : list A) :
  Forall P l → Forall P (List.filter f l).
Proof.
  intros Hl. apply Forall_forall. intros x Hx%filter_elem_of.
  by eapply Forall_forall in Hl.
Qed.

(** X6. With a sort column whose cells are all numbers, or none of them
    a number, the view is in order: each row compares less than or equal
    to every row after it, in the chosen direction. *)
Theorem view_sorted (d : SpreadsheetData) (q : string)
    (cf : gmap string (gset string)) (cfg : SortConfig) (k : string) :
  key cfg = Some k → Js.truthy k = true →
  Forall (numericColumn k) (rows d) ∨ Forall (textColumn k) (rows d) →
  StronglySorted (λ a b, compareRows k (direction cfg) a b <= 0)
                 (computeRows (Some d) q cf cfg).
Proof.
  intros Hk Htruthy Hcol. unfold computeRows.
  apply sortStage_sorted; [done..|].
  rewrite filterStage_filter. unfold searchStage.
  destruct Hcol as [Hcol|Hcol]; [left|right];
    destruct (Js.truthy q); by repeat apply filter_Forall.
Qed.

Lemma view_sorted_witness :
  StronglySorted (λ a b, compareRows "A" desc a b <= 0)
    (computeRows (Some Sample.sheet) "" ∅ (mkSort 0 (Some "A") desc)).
Proof.
  apply (view_sorted Sample.sheet "" ∅ (mkSort 0 (Some "A") desc) "A").
  - reflexivity.
  - reflexivity.
  - right. repeat constructor; intros n H; vm_compute in H; discriminate.
Defined.

(** ** The view *)

Lemma filter_sublist {A} (f : A → bool) (l : list A) : List.filter f l `sublist_of` l.
Proof.
  induction l as [|x l IH]; simpl; [done|].
  destruct (f x); by constructor.
Qed.

Lemma stages_sublist (q : string) (cf : gmap string (gset string)) (rs : list DataRow) :
  filterStage cf (searchStage q rs) `sublist_of` rs.
Proof.
  rewrite filterStage_filter. etrans; [apply filter_sublist|].
  unfold searchStage. destruct (Js.truthy q); [apply filter_sublist|done].
Qed.

Lemma computeRows_submseteq d q cf cfg : computeRows (Some d) q cf cfg ⊆+ rows d.
Proof.
  unfold computeRows. rewrite sortStage_perm. apply sublist_submseteq, stages_sublist.
Qed.

Lemma filter_elem_of_iff {A} (f : A → bool) (l : list A) (x : A) :
  x ∈ List.filter f l ↔ x ∈ l ∧ f x = true.
Proof. by rewrite !list_elem_of_In, List.filter_In. Qed.

(** X7. A row is in the view exactly when it is a row of the dataset,
    some field of it contains the query (when there is one, letter case
    aside), and in every column that has accepted values its text is one
    of them: the column filters combine with "and". *)
Theorem view_membership (d : SpreadsheetData) (q : string)
    (cf : gmap string (gset string)) (cfg : SortConfig) (r : DataRow) :
  r ∈ computeRows (Some d) q cf cfg ↔
  r ∈ rows d ∧
  (Js.truthy q = true → matchesQuery (Js.toLowerCase q) r = true) ∧
  ∀ col values, cf !! col = Some values → values ≠ ∅ →
                text (fields r !! col) ∈ values.
Proof.
  unfold computeRows. rewrite sortStage_perm, filterStage_filter.
  rewrite filter_elem_of_iff, passes_spec. unfold searchStage.
  destruct (Js.truthy q).
  - rewrite filter_elem_of_iff. naive_solver.
  - naive_solver.
Qed.

(** X8. The view never invents or repeats a row: it is a sub-multiset of
    the rows of the dataset, and when no sort column is set (or the sort
    key is the empty name) it is a subsequence, in the order of the
    file. *)
Theorem view_subsequence (d : SpreadsheetData) (q : string)
    (cf : gmap string (gset string)) (cfg : SortConfig) :
  computeRows (Some d) q cf cfg ⊆+ rows d ∧
  (key cfg = None ∨ key cfg = Some "" →
   computeRows (Some d) q cf cfg `sublist_of` rows d).
Proof.
  split; [apply computeRows_submseteq|].
  intros Hkey. unfold computeRows, sortStage.
  destruct Hkey as [->| ->]; apply stages_sublist.
Qed.

Lemma submseteq_NoDup {A} (l k : list A) : l ⊆+ k → NoDup k → NoDup l.
Proof.
  intros [k' Hk]%submseteq_Permutation Hnd. rewrite Hk in Hnd.
  by apply NoDup_app in Hnd as [? _].
Qed.

(** X9. In every reachable state the table shows row objects of the
    current dataset, each at most once, and nothing when there is no
    dataset; the rows of the dataset are pairwise distinct objects.  A
    stale view (column filters changed since it was computed) never
    holds a row of an earlier dataset. *)
Theorem rendered_rows_current (st : AppState) :
  reachable st →
  (data st = None → filteredRows st = []) ∧
  ∀ d, data st = Some d →
    filteredRows st ⊆+ rows d ∧
    NoDup (ref <$> filteredRows st) ∧
    NoDup (ref <$> rows d).
Proof.
  intros Hreach.
  destruct (filteredRows_pipeline st Hreach) as [cf0 Hview].
  destruct (reachable_Inv st Hreach) as [[[_ Hheap] _] _].
  split.
  - intros Hnone. by rewrite Hview, Hnone.
  - intros d Hd. destruct (Hheap d Hd) as (_ & Hnd & _).
    rewrite Hview, Hd. split_and!; [apply computeRows_submseteq| |done].
    eapply submseteq_NoDup; [|done]. apply fmap_submseteq, computeRows_submseteq.
Qed.

Lemma rendered_rows_current_witness :
  (data Sample.filtered = None → filteredRows Sample.filtered = []) ∧
  ∀ d, data Sample.filtered = Some d →
    filteredRows Sample.filtered ⊆+ rows d ∧
    NoDup (ref <$> filteredRows Sample.filtered) ∧
    NoDup (ref <$> rows d).
Proof.
  apply (rendered_rows_current Sample.filtered).
  apply reachable_dispatch, reachable_dispatch, reachable_initial.
Defined.

Lemma handle_memo (ev : Event) (st : AppState) : memo (handle ev st).2 = memo st.
Proof.
  destruct ev; simpl; try done.
  - unfold navigateRecord. by destruct (selectedIndex st).
  - destruct (saveChanges_atomic st) as [->|(d & p & old & _ & _ & ->)]; done.
  - unfold addColumn. destruct (data st); [|done].
    destruct (negb _); [done|]. by destruct (decide _).
Qed.

(** X10. Whenever an event changes the dataset object, the search query
    or the sort configuration, the render that follows shows the
    pipeline run on the current inputs, the current column filters
    included. *)
Theorem view_current_when_deps_change (ev : Event) (st : AppState) :
  reachable st →
  deps (handle ev st).2 ≠ deps st →
  let st' := dispatch ev st in
  filteredRows st' =
  computeRows (data st') (searchQuery st') (columnFilters st') (sortConfig st').
Proof.
  intros [_ [rs Hr]]%reachable_Inv Hdeps st'. subst st'. unfold dispatch.
  rewrite render_data, render_searchQuery, render_columnFilters, render_sortConfig.
  apply render_recomputes. intros [rs' Hr'].
  rewrite handle_memo, Hr in Hr'. apply Hdeps. congruence.
Qed.

Lemma view_current_when_deps_change_witness :
  let st' := dispatch (Search "y") Sample.filtered in
  filteredRows st' =
  computeRows (data st') (searchQuery st') (columnFilters st') (sortConfig st').
Proof.
  apply (view_current_when_deps_change (Search "y") Sample.filtered).
  - apply reachable_dispatch, reachable_dispatch, reachable_initial.
  - vm_compute. discriminate.
Defined.

(** ** The record editor *)

(** X11. Previous and next move the selection by one inside the view and
    stop at its ends: from a selection inside the view the new selection
    is inside the view, previous on the first record and next on the
    last one stay where they are. *)
Theorem navigateRecord_clamps (dir : NavDirection) (st : AppState) (i : Z) :
  selectedIndex st = Some i →
  0 <= i < Z.of_nat (length (filteredRows st)) →
  ∃ j, selectedIndex (navigateRecord dir st) = Some j ∧
       0 <= j < Z.of_nat (length (filteredRows st)) ∧
       j = match dir with
           | prev => if decide (i = 0) then 0 else i - 1
           | next => if decide (i = Z.of_nat (length (filteredRows st)) - 1)
                     then i else i + 1
           end.
Proof.
  intros Hsel Hi. unfold navigateRecord. rewrite Hsel. simpl.
  eexists. split; [done|]. destruct dir; destruct (decide _); lia.
Qed.

Lemma navigateRecord_clamps_witness :
  ∃ j, selectedIndex (navigateRecord next Sample.editing) = Some j ∧
       0 <= j < Z.of_nat (length (filteredRows Sample.editing)) ∧
       j = if decide (0 = Z.of_nat (length (filteredRows Sample.editing)) - 1)
           then 0 else 0 + 1.
Proof.
  apply (navigateRecord_clamps next Sample.editing 0).
  - reflexivity.
  - vm_compute. split; [discriminate | reflexivity].
Defined.

(** X12. Saving never changes the shape of the dataset: the headers, the
    file name, the sheet identifier and the number of rows stay, and
    every row but at most one is the object it was. *)
Theorem saveChanges_keeps_shape (st : AppState) (d d' : SpreadsheetData) :
  data st = Some d → data (saveChanges st) = Some d' →
  headers d' = headers d ∧ fileName d' = fileName d ∧ fileId d' = fileId d ∧
  length (rows d') = length (rows d) ∧
  ∃ p, ∀ q, q ≠ p → rows d' !! q = rows d !! q.
Proof.
  intros Hd Hd'.
  destruct (saveChanges_atomic st) as [Heq|(d0 & p & old & Hd0 & _ & Heq)];
    rewrite Heq in Hd'.
  - rewrite Hd in Hd'. injection Hd' as <-. split_and!; [done..|]. by exists 0%nat.
  - rewrite Hd in Hd0. injection Hd0 as <-. simpl in Hd'. injection Hd' as <-. simpl.
    split_and!; [done..|by rewrite length_insert|].
    exists p. intros q Hq. by rewrite list_lookup_insert_ne.
Qed.

Lemma saveChanges_keeps_shape_witness :
  let d' := mkData 5 ["A"; "B"]
              [Sample.twin1;
               mkRow 4 ({["B" := CStr "changed"]} ∪ Sample.record "1" "x")]
              "twins.csv" None in
  headers d' = headers Sample.twinSheet ∧
  fileName d' = fileName Sample.twinSheet ∧
  fileId d' = fileId Sample.twinSheet ∧
  length (rows d') = length (rows Sample.twinSheet) ∧
  ∃ p, ∀ q, q ≠ p → rows d' !! q = rows Sample.twinSheet !! q.
Proof.
  apply (saveChanges_keeps_shape Sample.twins Sample.twinSheet).
  - reflexivity.
  - vm_compute. reflexivity.
Defined.

(** ** The filter menu *)

Lemma foldl_setAdd_elem_of (l acc : list string) (x : string) :
  x ∈ foldl setAdd acc l ↔ x ∈ acc ∨ x ∈ l.
Proof.
  revert acc. induction l as [|y l IH]; intros acc; simpl.
  - rewrite elem_of_nil. tauto.
  - rewrite IH, elem_of_cons. unfold setAdd.
    destruct (decide (y ∈ acc)).
    + split; [tauto|]. intros [?|[->|?]]; tauto.
    + rewrite elem_of_app, list_elem_of_singleton. tauto.
Qed.

Lemma foldl_setAdd_NoDup (l acc : list string) :
  NoDup acc → NoDup (foldl setAdd acc l).
Proof.
  revert acc. induction l as [|y l IH]; intros acc Hacc; simpl; [done|].
  apply IH. unfold setAdd. destruct (decide (y ∈ acc)); [done|].
  apply NoDup_app. split_and!; [done| |apply NoDup_singleton].
  intros x Hx ->%list_elem_of_singleton. done.
Qed.

Lemma defaultCompare_le (a b : string) :
  defaultCompare a b <= 0 ↔ Js.strLt b a = false.
Proof.
  unfold defaultCompare. destruct (Js.strLt a b) eqn:Hab.
  - rewrite (strLt_asym _ _ Hab). split; [done|lia].
  - destruct (Js.strLt b a); split; (done || lia).
Qed.

Lemma sorted_strict (l : list string) :
  NoDup l →
  StronglySorted (λ a b, defaultCompare a b <= 0) l →
  StronglySorted (λ a b, Js.strLt a b = true) l.
Proof.
  intros Hnd Hs. induction Hs as [|x l Hs IH Hx]; [constructor|].
  apply NoDup_cons in Hnd as [Hx' Hnd]. constructor; [by apply IH|].
  apply Forall_forall. intros y Hy.
  eapply Forall_forall in Hx; [|done]. apply defaultCompare_le in Hx.
  destruct (Js.strLt x y) eqn:Hxy; [done|].
  destruct Hx'. by rewrite (strLt_total x y Hxy Hx).
Qed.

(** X13. The values offered in the filter menu of a column are the texts
    of that column over all the rows of the dataset, whatever the search
    and the other filters hide, each once, in ascending order of code
    units. *)
Theorem getUniqueValues_spec (column : string) (st : AppState) (d : SpreadsheetData) :
  data st = Some d →
  (∀ x, x ∈ getUniqueValues column st ↔
        ∃ row, row ∈ rows d ∧ text (fields row !! column) = x) ∧
  StronglySorted (λ a b, Js.strLt a b = true) (getUniqueValues column st).
Proof.
  intros Hd. unfold getUniqueValues, newSet. rewrite Hd. split.
  - intros x. rewrite sort_perm, foldl_setAdd_elem_of, elem_of_nil, list_elem_of_fmap.
    naive_solver.
  - apply sorted_strict.
    + rewrite sort_perm. apply foldl_setAdd_NoDup. constructor.
    + apply (sort_sorted _ (λ _, True)).
      * intros x y _ _. rewrite !defaultCompare_le.
        destruct (Js.strLt y x) eqn:Hyx; [|by left]. right. by apply strLt_asym.
      * intros x y z _ _ _. rewrite !defaultCompare_le. apply strLe_trans.
      * by apply Forall_forall.
Qed.

Lemma getUniqueValues_spec_witness :
  (∀ x, x ∈ getUniqueValues "A" Sample.filtered ↔
        ∃ row, row ∈ rows Sample.sheet ∧ text (fields row !! "A") = x) ∧
  StronglySorted (λ a b, Js.strLt a b = true) (getUniqueValues "A" Sample.filtered).
Proof.
  apply (getUniqueValues_spec "A" Sample.filtered Sample.sheet). reflexivity.
Defined.

(** ** Export *)

Lemma noDotSlash_dot (a b : string) : noDotSlash (a +:+ "." +:+ b) = false.
Proof.
  induction a as [|c a IH].
  - done.
  - change (noDotSlash (String c (a +:+ "." +:+ b)) = false). simpl.
    rewrite IH. by rewrite andb_false_r.
Qed.

Lemma stripExtension_extension (base ext : string) :
  ext ≠ "" → noDotSlash ext = true →
  stripExtension (base +:+ "." +:+ ext) = base.
Proof.
  intros Hne Hext. induction base as [|c base IH].
  - change (stripExtension (String "." ext) = ""). simpl. rewrite Hext.
    by destruct ext.
  - change (stripExtension (String c (base +:+ "." +:+ ext)) = String c base). simpl.
    by rewrite noDotSlash_dot, andb_false_r, IH.
Qed.

(** A name in which no dot is followed, up to the end, by one or more
    characters other than dot and slash is left as it is. *)
Lemma stripExtension_no_match (name : string) :
  (∀ base ext, name = base +:+ "." +:+ ext → ext = "" ∨ noDotSlash ext = false) →
  stripExtension name = name.
Proof.
  induction name as [|c name IH]; simpl; intros Hno; [done|].
  destruct (Ascii.eqb c "." && Js.truthy name && noDotSlash name) eqn:Hmatch.
  - apply andb_prop in Hmatch as [[Hdot%Ascii.eqb_eq Hname]%andb_prop Hclass].
    subst c. destruct (Hno "" name eq_refl) as [->|Hclass']; [done|congruence].
  - f_equal. apply IH. intros base ext ->.
    apply (Hno (String c base) ext). reflexivity.
Qed.

(** X14. A download needs a column: with a dataset and an empty display
    order [Papa.unparse] throws and no file is offered.  Otherwise the
    file is named after the imported one: when the name ends in a dot
    followed by one or more characters other than dot and slash, that
    ending is replaced by [.csv]; every other name (no dot at all, a dot
    at the very end, a slash after the last dot) is kept whole and [.csv]
    is added; [updated_] is put in front in both cases. *)
Theorem downloadCSV_file_name (st : AppState) (d : SpreadsheetData) :
  data st = Some d →
  (columnOrder st = [] → downloadCSV st = UnparseThrows) ∧
  (columnOrder st ≠ [] →
     (∀ base ext, fileName d = base +:+ "." +:+ ext → ext ≠ "" → noDotSlash ext = true →
        downloadCSV st = DownloadAs ("updated_" +:+ base +:+ ".csv")) ∧
     ((∀ base ext, fileName d = base +:+ "." +:+ ext →
                   ext = "" ∨ noDotSlash ext = false) →
        downloadCSV st = DownloadAs ("updated_" +:+ fileName d +:+ ".csv"))).
Proof.
  intros Hd. unfold downloadCSV. rewrite Hd. split; [by intros ->|].
  intros Hcols. destruct (columnOrder st) as [|h order]; [done|]. split.
  - intros base ext -> Hne Hext. by rewrite stripExtension_extension.
  - intros Hno. by rewrite stripExtension_no_match.
Qed.

Lemma downloadCSV_file_name_witness :
  downloadCSV Sample.loaded = DownloadAs "updated_people.csv" ∧
  downloadCSV Demo.empty = UnparseThrows.
Proof.
  split.
  - destruct (downloadCSV_file_name Sample.loaded Sample.sheet eq_refl) as [_ Hname].
    destruct (Hname ltac:(discriminate)) as [Hext _].
    apply (Hext "people" "csv"); [reflexivity|discriminate|reflexivity].
  - destruct (data Demo.empty) as [d|] eqn:Hd; [|by vm_compute in Hd].
    destruct (downloadCSV_file_name Demo.empty d Hd) as [Hthrows _].
    apply Hthrows. reflexivity.
Defined.

(** X15. The table written to the sheet is rectangular and complete: one
    line of headers and one line for every row of the dataset (not only
    the rows of the view), each as long as the display order, hidden
    columns included; the cell of row [i] under the [j]-th column is the
    value of the row, the empty text when the row has none. *)
Theorem syncValues_table (st : AppState) (values : list (list Cell)) :
  syncValues st = Some values →
  ∃ d, data st = Some d ∧
    values !! 0%nat = Some (CStr <$> columnOrder st) ∧
    length values = S (length (rows d)) ∧
    Forall (λ line, length line = length (columnOrder st)) values ∧
    ∀ i j row h, rows d !! i = Some row → columnOrder st !! j = Some h →
      values !! S i ≫= (.!! j) = Some (orEmpty (fields row !! h)).
Proof.
  unfold syncValues. destruct (data st) as [d|]; [|done].
  destruct (fileId d) as [id|]; [|done]. destruct (Js.truthy id); [|done].
  intros [= <-]. exists d. split_and!; [done..| | |].
  - simpl. by rewrite length_fmap.
  - constructor; [by rewrite length_fmap|].
    apply Forall_fmap, Forall_forall. intros row _. simpl. by rewrite length_fmap.
  - intros i j row h Hrow Hh. simpl.
    rewrite list_lookup_fmap, Hrow. simpl. by rewrite list_lookup_fmap, Hh.
Qed.

Lemma syncValues_table_witness :
  ∃ d, data Demo.remote = Some d ∧
    [CStr <$> columnOrder Demo.remote;
     [CStr "1"; CStr "x"]; [CStr ""; CStr ""]] !! 0%nat
      = Some (CStr <$> columnOrder Demo.remote) ∧
    length [CStr <$> columnOrder Demo.remote;
            [CStr "1"; CStr "x"]; [CStr ""; CStr ""]] = S (length (rows d)) ∧
    Forall (λ line, length line = length (columnOrder Demo.remote))
      [CStr <$> columnOrder Demo.remote; [CStr "1"; CStr "x"]; [CStr ""; CStr ""]] ∧
    ∀ i j row h, rows d !! i = Some row → columnOrder Demo.remote !! j = Some h →
      [CStr <$> columnOrder Demo.remote;
       [CStr "1"; CStr "x"]; [CStr ""; CStr ""]] !! S i ≫= (.!! j)
      = Some (orEmpty (fields row !! h)).
Proof.
  apply (syncValues_table Demo.remote).
  vm_compute. reflexivity.
Defined.

(** ** Substrings: the search and the message listener *)

Lemma prefix_spec (q s : string) :
  String.prefix q s = true ↔ ∃ b, s = q +:+ b.
Proof.
  revert s. induction q as [|c q IH]; intros s.
  - split; [|by destruct s]. intros _. by exists s.
  - destruct s as [|c' s]; simpl.
    + split; [done|]. by intros [b Hb].
    + destruct (Ascii.ascii_dec c c') as [->|Hne].
      * rewrite IH. split.
        -- intros [b ->]. by exists b.
        -- intros [b Hb]. exists b.
           change (String c' s = String c' (q +:+ b)) in Hb. congruence.
      * split; [done|]. intros [b Hb].
        change (String c' s = String c (q +:+ b)) in Hb. congruence.
Qed.

Lemma includes_nil (q : string) : Js.includes "" q = String.prefix q "" || false.
Proof. done. Qed.

Lemma includes_cons (c : ascii) (s q : string) :
  Js.includes (String c s) q = String.prefix q (String c s) || Js.includes s q.
Proof. done. Qed.

(** [includes] is the substring test. *)
Lemma includes_spec (s q : string) :
  Js.includes s q = true ↔ ∃ a b, s = a +:+ q +:+ b.
Proof.
  induction s as [|c s IH].
  - rewrite includes_nil, orb_false_r, prefix_spec. split.
    + intros [b Hb]. by exists "", b.
    + intros (a & b & Hs). destruct a; [by exists b|done].
  - rewrite includes_cons, orb_true_iff, prefix_spec, IH. split.
    + intros [[b Hb]|(a & b & ->)]; [by exists "", b|].
      by exists (String c a), b.
    + intros (a & b & Hs). destruct a as [|c' a].
      * left. by exists b.
      * right. exists a, b.
        change (String c s = String c' (a +:+ q +:+ b)) in Hs. congruence.
Qed.

Lemma endsWith_spec (s suffix : string) :
  endsWith s suffix = true ↔ ∃ a, s = a +:+ suffix.
Proof.
  induction s as [|c s IH]; simpl.
  - rewrite orb_false_r, bool_decide_eq_true. split.
    + intros <-. by exists "".
    + intros [a Ha]. by destruct a, suffix.
  - rewrite orb_true_iff, bool_decide_eq_true, IH. split.
    + intros [<-|[a ->]]; [by exists ""|]. by exists (String c a).
    + intros [a Ha]. destruct a as [|c' a]; [by left|].
      right. exists a. change (String c s = String c' (a +:+ suffix)) in Ha. congruence.
Qed.

(** X16. The message listener goes on to open the file picker exactly
    for a message of type OAUTH_AUTH_SUCCESS whose origin ends in
    [.run.app] or contains [localhost] anywhere, for instance as part of
    a longer host name. *)
Theorem handleMessage_spec (origin : string) (type : option string) :
  handleMessage origin type = true ↔
  type = Some "OAUTH_AUTH_SUCCESS" ∧
  ((∃ a, origin = a +:+ ".run.app") ∨ (∃ a b, origin = a +:+ "localhost" +:+ b)).
Proof.
  unfold handleMessage. rewrite <- endsWith_spec, <- includes_spec.
  destruct (endsWith origin ".run.app"), (Js.includes origin "localhost"); simpl;
    rewrite ?bool_decide_eq_true; naive_solver.
Qed.

Lemma lowerChar_idem (c : ascii) : Js.lowerChar (Js.lowerChar c) = Js.lowerChar c.
Proof. by destruct c as [[] [] [] [] [] [] [] []]. Qed.

Lemma toLowerCase_idem (s : string) : Js.toLowerCase (Js.toLowerCase s) = Js.toLowerCase s.
Proof. induction s as [|c s IH]; simpl; [done|]. by rewrite lowerChar_idem, IH. Qed.

Lemma truthy_toLowerCase (s : string) : Js.truthy (Js.toLowerCase s) = Js.truthy s.
Proof. by destruct s. Qed.

(** X17. The search ignores the letter case of the query: two queries
    that differ only in case keep the same rows. *)
Theorem search_case_insensitive (q q' : string) (rs : list DataRow) :
  Js.toLowerCase q = Js.toLowerCase q' → searchStage q rs = searchStage q' rs.
Proof.
  intros Hq. unfold searchStage.
  rewrite <- (truthy_toLowerCase q), <- (truthy_toLowerCase q'), Hq. done.
Qed.

Lemma search_case_insensitive_witness :
  searchStage "Y" (rows Sample.sheet) = searchStage "y" (rows Sample.sheet).
Proof.
  apply (search_case_insensitive "Y" "y" (rows Sample.sheet)). reflexivity.
Defined.

(** X18. The search and the column filter read an empty cell
    differently: a row with a [null] cell is found by the query "null",
    and by every query contained in that word, while the filter menu
    lists the same cell as the empty text. *)
Theorem search_finds_null_cell (q : string) (row : DataRow) (k : string)
    (rs : list DataRow) :
  fields row !! k = Some CNull → row ∈ rs →
  Js.truthy q = true → Js.includes "null" (Js.toLowerCase q) = true →
  row ∈ searchStage q rs ∧ text (fields row !! k) = "".
Proof.
  intros Hk Hrow Hq Hsub. split; [|by rewrite Hk].
  unfold searchStage. rewrite Hq. apply filter_elem_of_iff. split; [done|].
  unfold matchesQuery. apply existsb_exists. exists CNull. split; [|done].
  apply list_elem_of_In, list_elem_of_fmap. exists (k, CNull). split; [done|].
  by apply elem_of_map_to_list.
Qed.

Lemma search_finds_null_cell_witness :
  mkRow 2 {["A" := CNull]} ∈ searchStage "Nu" [mkRow 1 ∅; mkRow 2 {["A" := CNull]}] ∧
  text (fields (mkRow 2 {["A" := CNull]}) !! "A") = "".
Proof.
  apply (search_finds_null_cell "Nu" (mkRow 2 {["A" := CNull]}) "A").
  - reflexivity.
  - apply elem_of_cons. right. apply elem_of_cons. by left.
  - reflexivity.
  - reflexivity.
Defined.

(** ** Import *)

Lemma append_empty_r (s : string) : s +:+ "" = s.
Proof.
  induction s as [|c s IH]; [done|].
  change (String c (s +:+ "") = String c s). by rewrite IH.
Qed.

Lemma append_assoc (a b c : string) : (a +:+ b) +:+ c = a +:+ (b +:+ c).
Proof.
  induction a as [|x a IH]; [done|].
  change (String x ((a +:+ b) +:+ c) = String x (a +:+ (b +:+ c))). by rewrite IH.
Qed.

Lemma lastSegment_no_dot (cur e : string) :
  noDotSlash e = true → lastSegment cur e = cur +:+ e.
Proof.
  revert cur. induction e as [|c e IH]; intros cur; simpl.
  - intros _. by rewrite append_empty_r.
  - intros [[Hdot _]%andb_prop Hrest]%andb_prop.
    apply negb_true_iff in Hdot. rewrite Hdot, IH by done.
    by rewrite append_assoc.
Qed.

Lemma lastSegment_extension (cur base e : string) :
  noDotSlash e = true → lastSegment cur (base +:+ "." +:+ e) = e.
Proof.
  intros He. revert cur. induction base as [|c base IH]; intros cur.
  - change (lastSegment cur (String "." e) = e). simpl.
    by rewrite lastSegment_no_dot.
  - change (lastSegment cur (String c (base +:+ "." +:+ e)) = e). simpl.
    destruct (Ascii.eqb c "."); apply IH.
Qed.

(** X19. A file is imported by the text after its last dot, in any
    letter case: as CSV when it is [csv], and then the import replaces
    the dataset whatever the parser found, even no header and no record;
    a workbook ([xlsx], [xls]) without records and a file with any other
    ending change nothing and show no message. *)
Theorem handleFileUpload_by_extension (file : UploadedFile) (st : AppState)
    (base e : string) :
  file_name file = base +:+ "." +:+ e → noDotSlash e = true →
  (Js.toLowerCase e = "csv" →
     handleFileUpload file st =
     loadData (default [] (csv_fields file)) (csv_data file) (file_name file) None st) ∧
  (Js.toLowerCase e = "xlsx" ∨ Js.toLowerCase e = "xls" →
     sheet_json file = [] → handleFileUpload file st = st) ∧
  (Js.toLowerCase e ≠ "csv" → Js.toLowerCase e ≠ "xlsx" → Js.toLowerCase e ≠ "xls" →
     handleFileUpload file st = st).
Proof.
  intros Hname He. unfold handleFileUpload, fileExtension.
  rewrite Hname, lastSegment_extension by done. rewrite <- Hname. split_and!.
  - intros Hcsv. by rewrite decide_True.
  - intros Hx Hempty. rewrite Hempty.
    destruct (decide _) as [Hcsv|_]; [|by destruct (decide _)].
    rewrite Hcsv in Hx. by destruct Hx.
  - intros H1 H2 H3. rewrite decide_False by done.
    rewrite decide_False by naive_solver. done.
Qed.

Lemma handleFileUpload_by_extension_witness :
  handleFileUpload Demo.reportUpper initial =
  loadData (default [] (csv_fields Demo.reportUpper)) (csv_data Demo.reportUpper)
           (file_name Demo.reportUpper) None initial.
Proof.
  destruct (handleFileUpload_by_extension Demo.reportUpper initial "Report.final" "CSV")
    as [Hcsv _]; [reflexivity..|].
  apply Hcsv. reflexivity.
Defined.

(** X20. An import shows every column: whatever was visible before, the
    visible columns are exactly the headers of the file and the display
    order is their order, and each record becomes a row with its
    content, in the order of the file.  A file without headers leaves no
    column visible. *)
Theorem loadData_shows_all_columns (hs : list string) (records : list (gmap string Cell))
    (name : string) (id : option string) (st : AppState) :
  let st' := dispatch (Load hs records name id) st in
  (∀ h, h ∈ visibleColumns st' ↔ h ∈ hs) ∧
  columnOrder st' = hs ∧
  (hs = [] → visibleColumns st' = ∅) ∧
  ∃ d, data st' = Some d ∧ headers d = hs ∧ fields <$> rows d = records.
Proof.
  intros st'. subst st'. unfold dispatch. simpl.
  rewrite render_visibleColumns, render_data. unfold render at 1.
  split_and!.
  - intros h. simpl. by rewrite elem_of_list_to_set.
  - destruct (memo _) as [[? ?]|]; [by destruct (decide _)|done].
  - intros ->. done.
  - eexists. split; [done|]. simpl. split; [done|].
    generalize (next_ref st). induction records as [|r records IH]; intros base; [done|].
    simpl. f_equal. rewrite <- (IH (S base)) at 2. f_equal.
    apply imap_ext. intros i x _. simpl. f_equal. lia.
Qed.

(** ** Column visibility *)

Lemma setVisibleColumns_twice (a b : gset string) (st : AppState) :
  setVisibleColumns a (setVisibleColumns b st) = setVisibleColumns a st.
Proof. done. Qed.

(** X21. Toggling the visibility of a column twice gives back the state,
    provided some column is visible. *)
Theorem toggleColumn_twice (header : string) (st : AppState) :
  visibleColumns st ≠ ∅ → toggleColumn header (toggleColumn header st) = st.
Proof.
  intros Hne. rewrite <- (setVisibleColumns_same st) at 2.
  unfold toggleColumn. simpl.
  destruct (decide (header ∈ visibleColumns st)) as [Hin|Hout].
  - destruct (decide (1 < size (visibleColumns st))%nat) as [Hsz|Hsz].
    + rewrite decide_False by set_solver. rewrite setVisibleColumns_twice. f_equal.
      apply set_eq. intros x. destruct (decide (x = header)) as [->|]; set_solver.
    + rewrite decide_True, decide_False by done. by rewrite setVisibleColumns_twice.
  - rewrite decide_True by set_solver.
    rewrite decide_True.
    + rewrite setVisibleColumns_twice. f_equal. set_solver.
    + rewrite size_union, size_singleton by set_solver.
      assert (size (visibleColumns st) ≠ 0%nat); [|lia].
      rewrite size_empty_iff. by intros ?%leibniz_equiv.
Qed.

Lemma toggleColumn_twice_witness :
  toggleColumn "A" (toggleColumn "A" Sample.loaded) = Sample.loaded.
Proof.
  apply (toggleColumn_twice "A" Sample.loaded).
  intros H. apply (f_equal size) in H. vm_compute in H. discriminate.
Defined.

Lemma moveColumn_present_witness :
  ∃ i j,
    indexOf (columnOrder Sample.wide) "C" = Z.of_nat i ∧
    indexOf (columnOrder Sample.wide) "A" = Z.of_nat j ∧
    columnOrder (moveColumn "C" "A" Sample.wide) =
      take j (delete i (columnOrder Sample.wide)) ++
      "C" :: drop j (delete i (columnOrder Sample.wide)) ∧
    columnOrder (moveColumn "C" "A" Sample.wide) !! j = Some "C" ∧
    columnOrder (moveColumn "C" "A" Sample.wide) ≡ₚ columnOrder Sample.wide.
Proof.
  apply (moveColumn_present "C" "A" Sample.wide).
  - apply elem_of_cons. right. apply elem_of_cons. right. apply elem_of_cons. by left.
  - apply elem_of_cons. by left.
Defined.

(** ** Adding a column twice *)

(** X23. A column can be added once: after a name has been added, adding
    it again, with or without white space around it, alerts and changes
    nothing. *)
Theorem addColumn_again (name name' : string) (st : AppState) (d : SpreadsheetData) :
  data st = Some d → Js.isBlank name = false → Js.trim name ∉ headers d →
  Js.trim name' = Js.trim name →
  addColumn name' (addColumn name st).2 =
  ([Alert "Column already exists"], (addColumn name st).2).
Proof.
  intros Hd Hb Hout Hsame.
  destruct (addColumn_fresh name st d Hd Hb Hout)
    as [_ (d0 & d' & _ & Hd' & Hh & _)].
  apply (addColumn_duplicate name' _ d' Hd').
  - rewrite <- isBlank_trim, Hsame, isBlank_trim. done.
  - rewrite Hsame, Hh. apply elem_of_app. right. by apply list_elem_of_singleton.
Qed.

Lemma addColumn_again_witness :
  addColumn " Notes" (addColumn "Notes " Sample.loaded).2 =
  ([Alert "Column already exists"], (addColumn "Notes " Sample.loaded).2).
Proof.
  apply (addColumn_again "Notes " " Notes" Sample.loaded Sample.sheet).
  - reflexivity.
  - reflexivity.
  - vm_compute. intros H.
    by repeat (inversion H as [|? ? ? H']; subst; clear H; rename H' into H).
  - reflexivity.
Defined.

(** ** Leaving the dataset *)

(** X24. Returning to the import screen keeps the column filters and the
    sort configuration: after a reset and a new import the query is
    empty, nothing is selected and the buffer is empty, but the rows of
    the new file are shown through the filters and in the sort order
    that were set for the old one. *)
Theorem reset_keeps_filters_and_sort (hs : list string)
    (records : list (gmap string Cell)) (name : string) (id : option string)
    (st : AppState) :
  reachable st →
  let st' := dispatch (Load hs records name id) (dispatch Reset st) in
  columnFilters st' = columnFilters st ∧ sortConfig st' = sortConfig st ∧
  searchQuery st' = "" ∧ selectedIndex st' = None ∧ pendingChanges st' = ∅ ∧
  filteredRows st' = computeRows (data st') "" (columnFilters st) (sortConfig st).
Proof.
  intros Hreach st'.
  assert (reachable (dispatch Reset st)) as Hreach1 by by constructor.
  destruct (reachable_Inv _ Hreach1) as [_ [rs Hr]].
  assert (columnFilters (dispatch Reset st) = columnFilters st ∧
          sortConfig (dispatch Reset st) = sortConfig st ∧
          searchQuery (dispatch Reset st) = "" ∧
          selectedIndex (dispatch Reset st) = None ∧
          pendingChanges (dispatch Reset st) = ∅ ∧
          data (dispatch Reset st) = None) as (Hcf & Hsort & Hq & Hsel & Hpend & Hdata).
  { unfold dispatch.
    by rewrite render_columnFilters, render_sortConfig, render_searchQuery,
      render_selectedIndex, render_pendingChanges, render_data. }
  subst st'. revert Hr Hcf Hsort Hq Hsel Hpend Hdata.
  generalize (dispatch Reset st). clear Hreach Hreach1. intros s1 Hr Hcf Hsort Hq Hsel Hpend Hdata.
  unfold dispatch. simpl.
  rewrite render_columnFilters, render_sortConfig, render_searchQuery,
    render_selectedIndex, render_pendingChanges, render_data.
  split_and!; [done..|].
  rewrite render_recomputes.
  - simpl. by rewrite Hq, Hcf, Hsort.
  - intros [rs' Hr']. simpl in Hr'. rewrite Hr in Hr'.
    assert (deps s1 = deps (loadData hs records name id s1)) as Hdeps by congruence.
    unfold deps in Hdeps. simpl in Hdeps. rewrite Hdata in Hdeps. discriminate.
Qed.

Lemma reset_keeps_filters_and_sort_witness :
  let st' := dispatch (Load ["Z"] [] "other.csv" None) (dispatch Reset Sample.filtered) in
  columnFilters st' = columnFilters Sample.filtered ∧
  sortConfig st' = sortConfig Sample.filtered ∧
  searchQuery st' = "" ∧ selectedIndex st' = None ∧ pendingChanges st' = ∅ ∧
  filteredRows st' =
    computeRows (data st') "" (columnFilters Sample.filtered) (sortConfig Sample.filtered).
Proof.
  apply (reset_keeps_filters_and_sort ["Z"] [] "other.csv" None Sample.filtered).
  apply reachable_dispatch, reachable_dispatch, reachable_initial.
Defined.

(** ** The version with confirmation dialogs *)

Lemma guarded_spec (answer : bool) (st : AppState) (msg : string)
    (rest : AppState → AppState) :
  pendingChanges (rest st) = ∅ →
  (Guarded.guarded msg answer rest st).2
    = (if Guarded.dirty st && negb answer then st else rest st) ∧
  (pendingChanges (Guarded.guarded msg answer rest st).2 ≠ pendingChanges st →
     answer = true ∧ ∃ m, (Guarded.guarded msg answer rest st).1 = [Guarded.Confirm m]).
Proof.
  intros Hrest. unfold Guarded.guarded, Guarded.dirty.
  destruct (decide (pendingChanges st = ∅)) as [Hclean|Hdirty].
  - rewrite bool_decide_eq_false_2 by (by intros ?). simpl.
    split; [done|]. rewrite Hrest, Hclean. done.
  - rewrite bool_decide_eq_true_2 by done. simpl.
    destruct answer; simpl; [|done]. split; [done|]. eauto.
Qed.

(** X25. In the earlier version of the component the four ways out of a
    record (click on a row, previous and next, the close button, the
    return to the import screen) are the handlers of this version behind
    a confirmation: when the answer is no the state stays as it is, in
    every other case the handler does what the unguarded one does, and
    the buffer never changes without a dialog that was answered yes. *)
Theorem guarded_handlers (answer : bool) (index : Z) (dir : NavDirection)
    (st : AppState) :
  Forall (λ '(result, unguarded),
            result.2 = (if Guarded.dirty st && negb answer then st else unguarded) ∧
            (pendingChanges result.2 ≠ pendingChanges st →
               answer = true ∧ ∃ msg, result.1 = [Guarded.Confirm msg]))
    [(Guarded.handleRowClick answer index st, handleRowClick index st);
     (Guarded.navigateRecord answer dir st, navigateRecord dir st);
     (Guarded.closePanel answer st, closePanel st);
     (Guarded.resetApp answer st, resetApp st)].
Proof.
  apply List.Forall_cons;
    [|apply List.Forall_cons;
       [|apply List.Forall_cons; [|apply List.Forall_cons; [|apply List.Forall_nil]]]].
  - exact (guarded_spec answer st Guarded.unsaved (handleRowClick index) eq_refl).
  - unfold Guarded.navigateRecord, navigateRecord.
    destruct (selectedIndex st) as [i|].
    + exact (guarded_spec answer st Guarded.unsaved
               (λ st, setEditingField None
                        (setPendingChanges ∅
                           (setSelectedIndex
                              (Some match dir with
                                    | prev => Z.max 0 (i - 1)
                                    | next => Z.min (Z.of_nat (length (filteredRows st)) - 1)
                                                    (i + 1)
                                    end) st)))
               eq_refl).
    + split; [by destruct (_ && _)|done].
  - exact (guarded_spec answer st "Discard unsaved changes?" closePanel eq_refl).
  - exact (guarded_spec answer st Guarded.unsaved resetApp eq_refl).
Qed.

(** ** Saving a record out of the view *)

Lemma computeRows_length (d : SpreadsheetData) (q : string)
    (cf : gmap string (gset string)) (cfg : SortConfig) :
  length (computeRows (Some d) q cf cfg) = length (List.filter (keeps q cf) (rows d)).
Proof.
  unfold computeRows, keeps. rewrite sortStage_perm, filterStage_filter.
  unfold searchStage. destruct (Js.truthy q); simpl.
  - by rewrite filter_filter_andb.
  - done.
Qed.

Lemma computeRows_keeps (d : SpreadsheetData) (q : string)
    (cf : gmap string (gset string)) (cfg : SortConfig) (r : DataRow) :
  r ∈ computeRows (Some d) q cf cfg → keeps q cf r = true.
Proof.
  unfold computeRows, keeps. rewrite sortStage_perm, filterStage_filter.
  intros [Hr ->]%filter_elem_of_iff. rewrite andb_true_r.
  unfold searchStage in Hr. destruct (Js.truthy q); [|done].
  by apply filter_elem_of_iff in Hr as [_ ->].
Qed.

Lemma filter_insert_length {A} (f : A → bool) (l : list A) (p : nat) (old new : A) :
  l !! p = Some old → f old = true → f new = false →
  S (length (List.filter f (<[p := new]> l))) = length (List.filter f l).
Proof.
  intros Hp Hold Hnew. revert p Hp.
  induction l as [|x l IH]; intros p Hp; [done|].
  destruct p as [|p]; simpl in *.
  - injection Hp as ->. by rewrite Hold, Hnew.
  - destruct (f x); simpl; by rewrite (IH p).
Qed.

Lemma render_isPanelOpen (st : AppState) : isPanelOpen (render st) = isPanelOpen st.
Proof.
  unfold render. destruct (memo st) as [[d rs]|]; [|done]. by destruct (decide _).
Qed.

(** X26. Saving does not look at the selection again.  When the open
    record is the last row of an up-to-date view and the saved edit
    takes it out of the search result, the selection stays on its index,
    which is now past the end of the view, the panel stays open, and the
    title of the panel reads a field of [undefined]: the render throws. *)
Theorem save_orphans_selection (st : AppState) (d : SpreadsheetData) (i : nat)
    (target : DataRow) :
  reachable st → data st = Some d →
  isPanelOpen st = true → selectedIndex st = Some (Z.of_nat i) →
  filteredRows st =
    computeRows (data st) (searchQuery st) (columnFilters st) (sortConfig st) →
  filteredRows st !! i = Some target → length (filteredRows st) = S i →
  Js.truthy (searchQuery st) = true →
  (∀ addr, matchesQuery (Js.toLowerCase (searchQuery st))
             (mkRow addr (pendingChanges st ∪ fields target)) = false) →
  let st' := dispatch Save st in
  selectedIndex st' = Some (Z.of_nat i) ∧ isPanelOpen st' = true ∧
  length (filteredRows st') = i ∧
  panelTitle st' = Throws.
Proof.
  intros Hreach Hd Hopen Hsel Hcurrent Hi Hlen Hq Hgone st'.
  destruct (reachable_Inv _ Hreach) as [[Hheap _] [rs Hr]].
  assert (target ∈ filteredRows st) as Hin by (apply list_elem_of_lookup; eauto).
  assert (target ∈ rows d) as [p Hp]%list_elem_of_lookup
    by by apply (filteredRows_elem_of st).
  assert (saveChanges st = committed st d p target) as Hsave.
  { apply (saveChanges_selected st d (Z.of_nat i)); [done..| |done].
    by rewrite at_of_nat. }
  assert (keeps (searchQuery st) (columnFilters st) target = true) as Hkept.
  { rewrite Hcurrent, Hd in Hin. by eapply computeRows_keeps. }
  assert (filteredRows st' =
          computeRows
            (Some (mkData (S (next_ref st)) (headers d)
                     (<[p := spread (next_ref st) target (pendingChanges st)]> (rows d))
                     (fileName d) (fileId d)))
            (searchQuery st) (columnFilters st) (sortConfig st)) as Hview.
  { subst st'. unfold dispatch. simpl. rewrite Hsave.
    rewrite render_recomputes; [done|].
    intros [rs' Hr']. simpl in Hr'. rewrite Hr in Hr'.
    assert (deps st = deps (committed st d p target)) as Hdeps by congruence.
    unfold deps in Hdeps. simpl in Hdeps. rewrite Hd in Hdeps. simpl in Hdeps.
    destruct Hheap as [_ Hheap]. destruct (Hheap d Hd) as (Hdref & _).
    injection Hdeps as Hdeps. lia. }
  assert (length (filteredRows st') = i) as Hlen'.
  { rewrite Hview, computeRows_length. simpl.
    rewrite Hcurrent, Hd, computeRows_length in Hlen.
    pose proof (filter_insert_length (keeps (searchQuery st) (columnFilters st))
                  (rows d) p target
                  (spread (next_ref st) target (pendingChanges st)) Hp Hkept) as Hcount.
    rewrite <- Hcount in Hlen; [lia|].
    unfold keeps, spread. rewrite Hq, Hgone. done. }
  assert (selectedIndex st' = Some (Z.of_nat i)) as Hsel'.
  { subst st'. unfold dispatch. simpl. by rewrite render_selectedIndex, Hsave. }
  assert (isPanelOpen st' = true) as Hopen'.
  { subst st'. unfold dispatch. simpl. by rewrite render_isPanelOpen, Hsave. }
  split_and!; [done..|].
  assert (data st' = Some (mkData (S (next_ref st)) (headers d)
                     (<[p := spread (next_ref st) target (pendingChanges st)]> (rows d))
                     (fileName d) (fileId d))) as Hdata'.
  { subst st'. unfold dispatch. simpl. by rewrite render_data, Hsave. }
  unfold panelTitle. rewrite Hdata', Hopen', Hsel'.
  assert (pendingChanges st' = ∅) as ->.
  { subst st'. unfold dispatch. simpl. by rewrite render_pendingChanges, Hsave. }
  rewrite lookup_empty. simpl. rewrite at_of_nat.
  rewrite lookup_ge_None_2 by lia. done.
Qed.

Lemma save_orphans_selection_witness :
  let st' := dispatch Save Demo.narrowed in
  selectedIndex st' = Some (Z.of_nat 0) ∧ isPanelOpen st' = true ∧
  length (filteredRows st') = 0%nat ∧
  panelTitle st' = Throws.
Proof.
  apply (save_orphans_selection Demo.narrowed
           (mkData 2 ["A"] [mkRow 1 {["A" := CStr "x"]}] "one.csv" None)
           0 (mkRow 1 {["A" := CStr "x"]})).
  - apply reachable_run, reachable_initial.
  - reflexivity.
  - reflexivity.
  - reflexivity.
  - vm_compute. reflexivity.
  - reflexivity.
  - reflexivity.
  - reflexivity.
  - intros addr. vm_compute. reflexivity.
Defined.

(** ** Filter changes and the table *)

(** X27. A change of the column filters alone never changes the rows on
    screen: after selecting or deselecting a value, or clearing the
    filter of a column, the table shows the rows it showed before. *)
Theorem filter_events_keep_view (ev : Event) (st : AppState) :
  reachable st →
  (∃ column value, ev = ToggleColumnFilterValue column value) ∨
  (∃ column, ev = ClearColumnFilter column) →
  filteredRows (dispatch ev st) = filteredRows st.
Proof.
  intros [_ Hrendered]%reachable_Inv [(column & value & ->)|(column & ->)];
    unfold dispatch; simpl; by rewrite render_id.
Qed.

Lemma filter_events_keep_view_witness :
  filteredRows (dispatch (ClearColumnFilter "A") Sample.filtered)
  = filteredRows Sample.filtered.
Proof.
  apply (filter_events_keep_view (ClearColumnFilter "A") Sample.filtered).
  - apply reachable_dispatch, reachable_dispatch, reachable_initial.
  - right. by exists "A".
Defined.

(** ** The sort and the engine *)

(** X28. On a sort column whose cells are all numbers or none of them a
    number, and for rows that are distinct objects, the language leaves
    the engine no choice: every view it permits is the view computed
    here. *)
Theorem sortStage_engine_independent (cfg : SortConfig) (rs view : list DataRow) :
  NoDup rs →
  (∀ k, key cfg = Some k →
        Forall (numericColumn k) rs ∨ Forall (textColumn k) rs) →
  sortStageResult cfg rs view → view = sortStage cfg rs.
Proof.
  intros Hnd Hcol. unfold sortStageResult, sortStage.
  destruct (key cfg) as [k|]; [|done].
  destruct (Js.truthy k); [|done]. intros Hview.
  apply (sortOrder_unique (compareRows k (direction cfg)) rs); [|done|done|].
  - by apply compareRows_consistent, Hcol.
  - apply sort_sortOrder.
Qed.

Lemma sortStage_engine_independent_witness :
  let r1 := mkRow 1 {["A" := CStr "b"]} in
  let r2 := mkRow 2 {["A" := CStr "a"]} in
  let r3 := mkRow 3 {["A" := CStr "B"]} in
  [r2; r1; r3] = sortStage (mkSort 0 (Some "A") asc) [r1; r2; r3].
Proof.
  intros r1 r2 r3.
  apply (sortStage_engine_independent (mkSort 0 (Some "A") asc) [r1; r2; r3]).
  - apply (NoDup_fmap_1 ref). vm_compute. repeat constructor; set_solver.
  - intros k [= <-]. right. repeat constructor; intros n; vm_compute; discriminate.
  - change [r2; r1; r3] with (sort (compareRows "A" asc) [r1; r2; r3]).
    apply sort_sortOrder.
Defined.
